(** * mrmorphic/cache: an in-process cache with timed expiry

    A shallow embedding of [cache.go].  Every method of [Cache] becomes a
    computation in a small monad over the state of the cache and of the
    world around it; a computation returns, or parks in [c.Lock()], or
    panics.  The state keeps, besides the fields of [Cache], the order in
    which the goroutines locked, unlocked, touched the map and called a
    generator, so that the lock discipline can be read off it.

    Goroutines are not interleaved: a history is a sequence of whole
    operations and ticks.  In such a history the mutex is free between
    two operations unless a goroutine is parked with the mutex in its
    hands ([mutex_between_steps]), so that a computation that parks in
    [c.Lock()] parks for good. *)

From Stdlib Require Import ZArith Lia.
From stdpp Require Import base option list gmap strings.

(** ** Time

    A [time.Time] is modelled by the number of nanoseconds since the Unix
    epoch, a [time.Duration] by its [int64] count of nanoseconds.
    [Time.Add] is exact for every instant [time.Now] can give, while
    [Time.UnixNano] computes in [int64] and wraps around. *)

Abbreviation Time := Z.
Abbreviation Duration := Z.

Definition wrap64 (z : Z) : Z := ((z + 2 ^ 63) mod 2 ^ 64 - 2 ^ 63)%Z.

Definition Add (t : Time) (d : Duration) : Time := (t + d)%Z.

Definition UnixNano (t : Time) : Z := wrap64 t.

(** ** Goroutines and the events they leave behind *)

Inductive Goroutine :=
  | Client (n : nat)
  | Sweeper.

#[global] Instance Goroutine_eq_dec : EqDecision Goroutine.
Proof. solve_decision. Defined.

(** The state of the goroutine that [startTimer] launches. *)
Inductive Task :=
  | Polling     (* in [select], waiting for a tick or for [quit] *)
  | Parked      (* inside [c.Lock()], never to come back *)
  | Stopped     (* not launched yet, or returned after [quit] *)
  | Crashed.    (* died of a panic *)

Section cache.

(** Keys are Go values of some comparable type (a key that cannot be
    hashed makes the map panic and is left out), values are [interface{}]
    holding some payload or nil, and [U] is whatever state of the calling
    program the generators read and write. *)
Context {K : Type} `{Countable K}.
Context {V : Type}.
Context {U : Type}.

Inductive iface :=
  | nil_value
  | dyn (v : V).

Inductive Event :=
  | EvLock (g : Goroutine)
  | EvUnlock (g : Goroutine)
  | EvCall (g : Goroutine) (k : K)
  | EvMapLoad (g : Goroutine) (k : K)
  | EvMapStore (g : Goroutine) (k : K)
  | EvMapDelete (g : Goroutine) (k : K)
  | EvEntryWrite (g : Goroutine) (k : K).

(** What a generator can see and change besides its result: the clock
    (a call takes time) and the caller's own state. *)
Record Env := mkEnv {
  clock : Time;
  user : U
}.

(** [type ValueGenerator func() interface{}]; [None] is the nil func. *)
Definition ValueGenerator := option (Env -> iface * Env).

Record CacheEntry := mkEntry {
  value : iface;
  expiry : Time;
  perpetual : bool;
  fn : ValueGenerator;
  lifetime : Duration
}.

(** [Cache], together with the world around it.  [mu] is the embedded
    [sync.Mutex], with the goroutine that locked it as ghost owner;
    [bg] stands for [ticker] and [quit], the handles on the sweeping
    goroutine.  A [*CacheEntry] is referenced by exactly one binding of
    [entries] (both stores allocate a new one and no pointer leaves the
    package), so the object is identified with the binding holding it. *)
Record State := mkState {
  mu : option Goroutine;
  entries : gmap K CacheEntry;
  bg : Task;
  env : Env;
  log : list Event
}.

Definition set_mu (m : option Goroutine) (s : State) : State :=
  mkState m (entries s) (bg s) (env s) (log s).
Definition set_entries (m : gmap K CacheEntry) (s : State) : State :=
  mkState (mu s) m (bg s) (env s) (log s).
Definition set_bg (t : Task) (s : State) : State :=
  mkState (mu s) (entries s) t (env s) (log s).
Definition set_env (e : Env) (s : State) : State :=
  mkState (mu s) (entries s) (bg s) e (log s).
Definition emit (e : Event) (s : State) : State :=
  mkState (mu s) (entries s) (bg s) (env s) (log s ++ [e]).

(** ** The monad *)

Inductive Outcome (A : Type) :=
  | Ret (a : A) (s : State)
  | Blocked (s : State)
  | Panic (s : State).
Arguments Ret {A} a s.
Arguments Blocked {A} s.
Arguments Panic {A} s.

Definition M (A : Type) : Type := State -> Outcome A.

Definition ret {A} (a : A) : M A := fun s => Ret a s.

Definition bind {A B} (m : M A) (f : A -> M B) : M B :=
  fun s =>
    match m s with
    | Ret a s' => f a s'
    | Blocked s' => Blocked s'
    | Panic s' => Panic s'
    end.

Notation "'do' x <- m ; k" := (bind m (fun x => k))
  (at level 10, x name, m at level 100, k at level 200,
   format "'[v' 'do'  x  <-  m ; '/' k ']'").
Notation "'do_' m ; k" := (bind m (fun _ => k))
  (at level 10, m at level 100, k at level 200,
   format "'[v' 'do_'  m ; '/' k ']'").

(** The state an outcome ends in, whichever way it ends. *)
Definition final {A} (o : Outcome A) : State :=
  match o with
  | Ret _ s => s
  | Blocked s => s
  | Panic s => s
  end.

(** ** Primitive actions *)

(** [sync.Mutex.Lock]: not reentrant, the caller parks while it is held,
    whoever holds it. *)
Definition Lock (g : Goroutine) : M unit :=
  fun s =>
    match mu s with
    | None => Ret tt (emit (EvLock g) (set_mu (Some g) s))
    | Some _ => Blocked s
    end.

(** [sync.Mutex.Unlock]: a fatal error on an unlocked mutex. *)
Definition Unlock (g : Goroutine) : M unit :=
  fun s =>
    match mu s with
    | Some _ => Ret tt (emit (EvUnlock g) (set_mu None s))
    | None => Panic s
    end.

(** [time.Now()] *)
Definition Now : M Time := fun s => Ret (clock (env s)) s.

(** Calling the func value of the entry for [key]: a nil one panics. *)
Definition call (g : Goroutine) (key : K) (f : ValueGenerator) : M iface :=
  fun s =>
    match f with
    | Some gen =>
        Ret (gen (env s)).1 (emit (EvCall g key) (set_env (gen (env s)).2 s))
    | None => Panic s
    end.

(** [c.entries[key]] *)
Definition mapLoad (g : Goroutine) (key : K) : M (option CacheEntry) :=
  fun s => Ret (entries s !! key) (emit (EvMapLoad g key) s).

(** [c.entries[key] = entry] *)
Definition mapStore (g : Goroutine) (key : K) (entry : CacheEntry) : M unit :=
  fun s => Ret tt (emit (EvMapStore g key) (set_entries (<[key := entry]> (entries s)) s)).

(** [delete(c.entries, key)] *)
Definition mapDelete (g : Goroutine) (key : K) : M unit :=
  fun s => Ret tt (emit (EvMapDelete g key) (set_entries (delete key (entries s)) s)).

(** An assignment through the entry pointer held under [key]; an entry
    that has left the map in the meantime is out of everyone's sight. *)
Definition entryWrite (g : Goroutine) (key : K) (f : CacheEntry -> CacheEntry) : M unit :=
  fun s => Ret tt (emit (EvEntryWrite g key) (set_entries (alter f key (entries s)) s)).

Definition with_value (nv : iface) (e : CacheEntry) : CacheEntry :=
  mkEntry nv (expiry e) (perpetual e) (fn e) (lifetime e).
Definition with_expiry (t : Time) (e : CacheEntry) : CacheEntry :=
  mkEntry (value e) t (perpetual e) (fn e) (lifetime e).

(** ** The methods of [Cache] *)

(** [startTimer] makes the ticker and the quit channel and launches the
    sweeping goroutine, which goes to its [select]; what the goroutine
    does there is [tick] and [Free] below. *)
Definition startTimer (s : State) : State := set_bg Polling s.

(** [NewCache], in the world [e]: an empty map, then [c.startTimer()]. *)
Definition NewCache (e : Env) : State :=
  startTimer (mkState None ∅ Stopped e []).

(** [Store]: the zero values stand for the fields the literal leaves out. *)
Definition Store (g : Goroutine) (key : K) (v : iface) (d : Duration) : M unit :=
  do now <- Now;
  let entry := mkEntry v (Add now d) false None 0%Z in
  do_ Lock g;
  do_ mapStore g key entry;
  Unlock g.

Definition StorePerpetual (g : Goroutine) (key : K) (f : ValueGenerator) (d : Duration) : M unit :=
  do now <- Now;
  let entry := mkEntry nil_value (Add now d) true f d in
  do v <- call g key f;
  let entry := with_value v entry in
  do_ Lock g;
  do_ mapStore g key entry;
  Unlock g.

Definition Delete (g : Goroutine) (key : K) : M unit :=
  mapDelete g key.

Definition Get (g : Goroutine) (key : K) : M iface :=
  do_ Lock g;
  do entry <- mapLoad g key;
  do_ Unlock g;
  match entry with
  | None => ret nil_value
  | Some e => ret (value e)
  end.

Definition expire (g : Goroutine) (key : K) (entry : CacheEntry) : M unit :=
  if perpetual entry then
    do nv <- call g key (fn entry);
    do_ Lock g;
    do_ entryWrite g key (with_value nv);
    do now <- Now;
    do_ entryWrite g key (with_expiry (Add now (lifetime entry)));
    Unlock g
  else
    Delete g key.

(** [for k, v := range c.entries { body }]: Go visits the bindings in an
    order of its own choosing, [order] here; a binding deleted before its
    turn is not produced. *)
Fixpoint rangeEntries (g : Goroutine) (order : list K)
    (body : K -> CacheEntry -> M unit) : M unit :=
  match order with
  | [] => ret tt
  | k :: rest =>
      do v <- mapLoad g k;
      do_ match v with
          | Some e => body k e
          | None => ret tt
          end;
      rangeEntries g rest body
  end.

(** The [case <-c.ticker.C] arm of the goroutine in [startTimer]. *)
Definition sweep (g : Goroutine) (order : list K) : M unit :=
  do now <- Now;
  let n := UnixNano now in
  do_ Lock g;
  do_ rangeEntries g order (fun k v =>
        let e := UnixNano (expiry v) in
        if bool_decide (e ≤ n)%Z then expire g k v else ret tt);
  Unlock g.

(** [Free]: [c.quit <- true] on an unbuffered channel goes through when
    the sweeping goroutine is in its [select], and only then. *)
Definition Free (g : Goroutine) : M unit :=
  fun s =>
    match bg s with
    | Polling => Ret tt (set_bg Stopped s)
    | _ => Blocked s
    end.

(** One tick of [c.ticker]: the sweeping goroutine runs a sweep if it is
    there to receive the tick, and is gone or stuck if the sweep is. *)
Definition tick (order : list K) (s : State) : State :=
  match bg s with
  | Polling =>
      match sweep Sweeper order s with
      | Ret _ s' => s'
      | Blocked s' => set_bg Parked s'
      | Panic s' => set_bg Crashed s'
      end
  | _ => s
  end.

(** ** Histories: what happens to a cache, one operation after the other *)

Inductive Op :=
  | OpStore (g : Goroutine) (key : K) (v : iface) (d : Duration)
  | OpStorePerpetual (g : Goroutine) (key : K) (f : ValueGenerator) (d : Duration)
  | OpDelete (g : Goroutine) (key : K)
  | OpGet (g : Goroutine) (key : K)
  | OpFree (g : Goroutine)
  | OpTick (order : list K)
  | OpSleep (d : Duration).

Definition sleep (d : Duration) (s : State) : State :=
  set_env (mkEnv (clock (env s) + Z.max 0 d)%Z (user (env s))) s.

Definition step (s : State) (op : Op) : State :=
  match op with
  | OpStore g key v d => final (Store g key v d s)
  | OpStorePerpetual g key f d => final (StorePerpetual g key f d s)
  | OpDelete g key => final (Delete g key s)
  | OpGet g key => final (Get g key s)
  | OpFree g => final (Free g s)
  | OpTick order => tick order s
  | OpSleep d => sleep d s
  end.

Definition run (ops : list Op) (s : State) : State := fold_left step ops s.

(** The keys a history stores under. *)
Definition stores (key : K) (op : Op) : Prop :=
  match op with
  | OpStore _ k _ _ | OpStorePerpetual _ k _ _ => k = key
  | _ => False
  end.

(** ** Lock discipline of a trace

    [disciplined holder tr]: starting with the mutex in the hands of
    [holder], every access of [tr] to the map or to an entry is made by
    the goroutine that holds the mutex at that moment. *)
Definition holds (holder : option Goroutine) (g : Goroutine) : bool :=
  bool_decide (holder = Some g).

Fixpoint disciplined (holder : option Goroutine) (tr : list Event) : bool :=
  match tr with
  | [] => true
  | EvLock g :: tr => disciplined (Some g) tr
  | EvUnlock _ :: tr => disciplined None tr
  | EvCall _ _ :: tr => disciplined holder tr
  | EvMapLoad g _ :: tr
  | EvMapStore g _ :: tr
  | EvMapDelete g _ :: tr
  | EvEntryWrite g _ :: tr => holds holder g && disciplined holder tr
  end.

(** ** The shape of entries

    In Go a field that was not set holds its zero value: a nil func, a
    zero duration. *)
Definition is_set_fn (f : ValueGenerator) : bool :=
  match f with Some _ => true | None => false end.

Definition is_set_lifetime (d : Duration) : bool := negb (d =? 0)%Z.

Definition shape_ok (e : CacheEntry) : bool :=
  if perpetual e
  then is_set_fn (fn e) && is_set_lifetime (lifetime e)
  else negb (is_set_fn (fn e)) && negb (is_set_lifetime (lifetime e)).


(** What the code relies on when it calls [entry.fn]: a perpetual entry
    has a generator. *)
Definition callable (e : CacheEntry) : bool :=
  if perpetual e then is_set_fn (fn e) else true.

Definition callable_inv (s : State) : Prop :=
  map_Forall (fun _ e => callable e = true) (entries s).

(** An entry is due at the sweep that read [now] off the clock. *)
Definition due (now : Time) (e : CacheEntry) : bool :=
  bool_decide (UnixNano (expiry e) ≤ UnixNano now)%Z.

(** The entry [Store] leaves in the map, and the one [StorePerpetual]
    leaves there. *)
Definition plain_entry (now : Time) (v : iface) (d : Duration) : CacheEntry :=
  mkEntry v (now + d)%Z false None 0%Z.
Definition perpetual_entry (now : Time) (v : iface)
    (gen : Env -> iface * Env) (d : Duration) : CacheEntry :=
  mkEntry v (now + d)%Z true (Some gen) d.

(** The orders in which [range] may produce the keys of a map: each key
    once, in any order. *)
Definition range_order (m : gmap K CacheEntry) (order : list K) : Prop :=
  NoDup order ∧ ∀ k, k ∈ order ↔ is_Some (m !! k).

(** What one sweep makes of a binding when no generator is involved. *)
Definition evict (now : Time) (e : CacheEntry) : option CacheEntry :=
  if due now e then None else Some e.

(** The events of a trace that lock or unlock the mutex. *)
Definition is_sync (ev : Event) : bool :=
  match ev with
  | EvLock _ | EvUnlock _ => true
  | _ => false
  end.

(** The events of a trace that call the generator of [key]. *)
Definition is_call_for (key : K) (ev : Event) : bool :=
  match ev with
  | EvCall _ k => bool_decide (k = key)
  | _ => false
  end.

(** Where the loop of a sweep can have got to by the time it ends, however
    it ends: the mutex is still held and was not touched, a binding is as
    it was or was a due plain entry and is gone, and no generator was
    called for a key that had no binding. *)
Definition loop_post (now : Time) (g0 : Goroutine) (s s' : State) : Prop :=
  mu s' = Some g0 ∧ bg s' = bg s ∧
  (∀ k, entries s' !! k = entries s !! k ∨
        (entries s' !! k = None ∧
         ∃ e, entries s !! k = Some e ∧ perpetual e = false ∧ due now e = true)) ∧
  (∃ tr, log s' = log s ++ tr ∧
         Forall (λ ev, is_sync ev = false) tr ∧
         ∀ k, entries s !! k = None → Forall (λ ev, is_call_for k ev = false) tr).

(** What a sweep, a tick or any other step may have done to the map and
    to the generators by the time it is over. *)
Definition swept (now : Time) (s s' : State) : Prop :=
  (∀ k, entries s' !! k = entries s !! k ∨
        (entries s' !! k = None ∧
         ∃ e, entries s !! k = Some e ∧ perpetual e = false ∧ due now e = true)) ∧
  (∃ tr, log s' = log s ++ tr ∧
         ∀ k, entries s !! k = None → Forall (λ ev, is_call_for k ev = false) tr).

(** A key that has no binding gets none, and no call of a generator,
    from a step that does not store under it. *)
Definition untouched (k : K) (s s' : State) : Prop :=
  entries s' !! k = None ∧
  ∃ tr, log s' = log s ++ tr ∧ Forall (λ ev, is_call_for k ev = false) tr.

(** Between two steps of a history every perpetual entry has a generator
    and the mutex is free, or the sweeping goroutine is parked with it. *)
Definition settled (s : State) : Prop :=
  callable_inv s ∧ (mu s = None ∨ (mu s = Some Sweeper ∧ bg s = Parked)).


(** ** Reading operations and events *)

(** The goroutine an event is due to. *)
Definition actor (ev : Event) : Goroutine :=
  match ev with
  | EvLock g | EvUnlock g | EvCall g _ | EvMapLoad g _
  | EvMapStore g _ | EvMapDelete g _ | EvEntryWrite g _ => g
  end.

(** The key an operation of a client names. *)
Definition op_key (op : Op) : option K :=
  match op with
  | OpStore _ k _ _ | OpStorePerpetual _ k _ _ | OpDelete _ k | OpGet _ k => Some k
  | OpFree _ | OpTick _ | OpSleep _ => None
  end.

Definition is_tick (op : Op) : bool :=
  match op with OpTick _ => true | _ => false end.

Definition is_delete (op : Op) : bool :=
  match op with OpDelete _ _ => true | _ => false end.

(** The operations that can make [key] perpetual. *)
Definition stores_perpetual (key : K) (op : Op) : Prop :=
  match op with
  | OpStorePerpetual _ k _ _ => k = key
  | _ => False
  end.

(** [key] has no entry, or a plain one. *)
Definition plain_at (key : K) (s : State) : Prop :=
  ∀ e, entries s !! key = Some e → perpetual e = false.


(** From [s] to [s'], [key] kept a plain or missing entry and no
    generator was called for it. *)
Definition left_plain (key : K) (s s' : State) : Prop :=
  plain_at key s' ∧
  ∃ tr, log s' = log s ++ tr ∧ Forall (λ ev, is_call_for key ev = false) tr.

(** From [s] to [s'], entries went away at most. *)
Definition shrunk (s s' : State) : Prop :=
  ∀ k, entries s' !! k = entries s !! k ∨ entries s' !! k = None.

End cache.

Arguments Ret {K _ _ V U A} a s.
Arguments Blocked {K _ _ V U A} s.
Arguments Panic {K _ _ V U A} s.

(** ** A cache to try things on

    String keys, numbers as values, and a generator that counts its own
    calls and takes five nanoseconds each time. *)
Module Example.

Definition counter : @Env nat -> @iface nat * @Env nat :=
  fun w => (dyn (user w), mkEnv (clock w + 5)%Z (S (user w))).

Definition world : @Env nat := mkEnv 1000%Z 0.

Definition fresh : @State string _ _ nat nat := NewCache world.

(** [StorePerpetual("SiteTree", counter, 30ns)] on a new cache *)
Definition cycled : @State string _ _ nat nat :=
  final (StorePerpetual (Client 0) "SiteTree" (Some counter) 30%Z fresh).

(** [Store("Key", 7, 30ns)] on a new cache *)
Definition stored : @State string _ _ nat nat :=
  final (Store (Client 0) "Key" (dyn 7) 30%Z fresh).

(** [StorePerpetual("SiteTree", counter, 0)] on a new cache *)
Definition hurried : @State string _ _ nat nat :=
  final (StorePerpetual (Client 0) "SiteTree" (Some counter) 0%Z fresh).

(** The same entry once its thirty nanoseconds are over *)
Definition overdue : @State string _ _ nat nat := sleep 40%Z cycled.

(** [Store("Key", 7, math.MaxInt64)], in the year 2026 *)
Definition year2026 : @Env nat := mkEnv 1790000000000000000%Z 0.
Definition forever : @State string _ _ nat nat :=
  final (Store (Client 0) "Key" (dyn 7) (2 ^ 63 - 1)%Z (NewCache year2026)).


(** [Store("Key", 7, 30ns)], forty nanoseconds later *)
Definition lapsed : @State string _ _ nat nat := sleep 40%Z stored.

(** The cache with the overdue perpetual entry, after the next tick *)
Definition stuck : @State string _ _ nat nat := tick ["SiteTree"] overdue.


(** [Store("Key", 7, 30ns)], [Store("Key2", 8, 1ns)], two nanoseconds
    later: the second entry is due, the first is not *)
Definition pair : @State string _ _ nat nat :=
  sleep 2%Z (final (Store (Client 0) "Key2" (dyn 8) 1%Z stored)).

(** A day in the life of a client that stays away from "Key" *)
Definition elsewhere : list (@Op string nat nat) :=
  [OpStore (Client 1) "Other" (dyn 1) 5%Z;
   OpStorePerpetual (Client 1) "Other" (Some counter) 5%Z;
   OpStorePerpetual (Client 2) "Other" None 5%Z;
   OpGet (Client 1) "Other";
   OpSleep 9%Z;
   OpDelete (Client 1) "Other"].

End Example.

(** * Properties *)

Lemma wrap64_id (z : Z) :
  (- 2 ^ 63 ≤ z < 2 ^ 63)%Z → wrap64 z = z.
Proof.
  intros Hz. unfold wrap64.
  rewrite Z.mod_small by lia. lia.
Qed.

(** Between 1678 and 2262 [UnixNano] compares as the instants do. *)
Lemma UnixNano_le (t u : Z) :
  (- 2 ^ 63 ≤ t < 2 ^ 63)%Z → (- 2 ^ 63 ≤ u < 2 ^ 63)%Z →
  (UnixNano t ≤ UnixNano u)%Z ↔ (t ≤ u)%Z.
Proof.
  intros Ht Hu. unfold UnixNano. by rewrite !wrap64_id.
Qed.

Section facts.

Context {K : Type} `{Countable K} {V U : Type}.

Local Abbreviation State := (@State K _ _ V U).
Local Abbreviation CacheEntry := (@CacheEntry V U).
Local Abbreviation Env := (@Env U).
Local Abbreviation iface := (@iface V).

Implicit Types (s : State) (g : Goroutine) (k key : K) (e : CacheEntry).
Implicit Types (v : iface) (d : Z) (order : list K) (w : Env).

Ltac step_m :=
  unfold Store, StorePerpetual, Get, Delete, Free, expire,
    bind, ret, Now, Lock, Unlock, call, mapLoad, mapStore, mapDelete,
    entryWrite, Add; simpl.

Ltac flat_log := rewrite <- ?app_assoc; simpl.

Lemma Store_returns s g k v d :
  mu s = None →
  Store g k v d s =
    Ret tt (mkState None (<[k := plain_entry (clock (env s)) v d]> (entries s))
              (bg s) (env s)
              (log s ++ [EvLock g; EvMapStore g k; EvUnlock g])).
Proof.
  intros Hmu. step_m. rewrite Hmu. simpl.
  unfold emit, set_entries, set_mu. simpl. by flat_log.
Qed.

Lemma Store_blocks s g k v d :
  mu s ≠ None → Store g k v d s = Blocked s.
Proof. intros Hmu. step_m. by destruct (mu s). Qed.

Lemma StorePerpetual_returns s g k gen d :
  mu s = None →
  StorePerpetual g k (Some gen) d s =
    Ret tt (mkState None
              (<[k := perpetual_entry (clock (env s)) (gen (env s)).1 gen d]> (entries s))
              (bg s) (gen (env s)).2
              (log s ++ [EvCall g k; EvLock g; EvMapStore g k; EvUnlock g])).
Proof.
  intros Hmu. step_m. rewrite Hmu. simpl.
  unfold emit, set_entries, set_mu, with_value. simpl. by flat_log.
Qed.

Lemma StorePerpetual_nil s g k d :
  StorePerpetual g k None d s = Panic s.
Proof. reflexivity. Qed.

Lemma Get_returns s g k :
  mu s = None →
  Get g k s =
    Ret (match entries s !! k with Some e => value e | None => nil_value end)
        (mkState None (entries s) (bg s) (env s)
           (log s ++ [EvLock g; EvMapLoad g k; EvUnlock g])).
Proof.
  intros Hmu. step_m. rewrite Hmu. simpl.
  unfold emit, set_mu. simpl. flat_log. by destruct (entries s !! k).
Qed.

Lemma Get_blocks s g k :
  mu s ≠ None → Get g k s = Blocked s.
Proof. intros Hmu. step_m. by destruct (mu s). Qed.

Lemma Get_no_panic s g k s' : Get g k s ≠ Panic s'.
Proof.
  destruct (mu s) eqn:Hmu.
  - rewrite Get_blocks; [done | by rewrite Hmu].
  - by rewrite Get_returns.
Qed.

Lemma Delete_returns s g k :
  Delete g k s =
    Ret tt (mkState (mu s) (delete k (entries s)) (bg s) (env s)
              (log s ++ [EvMapDelete g k])).
Proof. reflexivity. Qed.

(** ** The sweep *)

Local Abbreviation visit g now :=
  (fun k e => if bool_decide (UnixNano (expiry e) ≤ UnixNano now)%Z
              then expire g k e else ret tt).

Lemma sweep_unfold s g order :
  mu s = None →
  sweep g order s =
    bind (rangeEntries g order (visit g (clock (env s)))) (fun _ => Unlock g)
      (emit (EvLock g) (set_mu (Some g) s)).
Proof. intros Hmu. unfold sweep, bind at 1 2, Now, Lock. simpl. by rewrite Hmu. Qed.

Lemma sweep_blocks s g order :
  mu s ≠ None → sweep g order s = Blocked s.
Proof. intros Hmu. unfold sweep, bind, Now, Lock. simpl. by destruct (mu s). Qed.

(** One turn of the loop, taken while the mutex is held. *)
Lemma loop_step s g g0 now k rest :
  mu s = Some g0 →
  rangeEntries g (k :: rest) (visit g now) s =
    let s1 := emit (EvMapLoad g k) s in
    match entries s !! k with
    | None => rangeEntries g rest (visit g now) s1
    | Some e =>
        if due now e then
          if perpetual e then
            match fn e with
            | Some gen => Blocked (emit (EvCall g k) (set_env (gen (env s)).2 s1))
            | None => Panic s1
            end
          else rangeEntries g rest (visit g now)
                 (emit (EvMapDelete g k) (set_entries (delete k (entries s)) s1))
        else rangeEntries g rest (visit g now) s1
    end.
Proof.
  intros Hmu. simpl. unfold bind at 1 2, mapLoad. simpl.
  destruct (entries s !! k) as [e|]; [|done].
  unfold due. destruct (bool_decide _); [|done].
  unfold expire. destruct (perpetual e); [|done].
  unfold bind, call, Lock. simpl.
  destruct (fn e); [|done]. simpl. by rewrite Hmu.
Qed.

Lemma loop_post_refl now g0 s : mu s = Some g0 → loop_post now g0 s s.
Proof.
  intros Hmu. split; [done |]. split; [done |]. split; [by left |].
  exists []. split; [by rewrite app_nil_r |]. split; [by constructor |].
  intros; by constructor.
Qed.

Lemma loop_post_load now g0 g k s s' :
  loop_post now g0 (emit (EvMapLoad g k) s) s' → loop_post now g0 s s'.
Proof.
  intros (Hmu & Hbg & Hent & tr & Hlog & Hsync & Hcalls).
  split; [done |]. split; [done |]. split; [done |].
  exists (EvMapLoad g k :: tr). split; [|split].
  - rewrite Hlog. simpl. by rewrite <- app_assoc.
  - by constructor.
  - intros k' Hk'. constructor; [done | by apply Hcalls].
Qed.

Lemma loop_post_delete now g0 g k e s s' :
  entries s !! k = Some e → perpetual e = false → due now e = true →
  loop_post now g0
    (emit (EvMapDelete g k)
       (set_entries (delete k (entries s)) (emit (EvMapLoad g k) s))) s' →
  loop_post now g0 s s'.
Proof.
  intros Hk Hperp Hdue (Hmu & Hbg & Hent & tr & Hlog & Hsync & Hcalls).
  simpl in *. split; [done |]. split; [done |]. split.
  - intros k'. destruct (decide (k' = k)) as [->|Hne].
    + right. split; [|by exists e].
      destruct (Hent k) as [Heq | [Heq _]]; [|done].
      by rewrite Heq, lookup_delete_eq.
    + destruct (Hent k') as [Heq | (Heq & e' & He' & Hrest)].
      * left. by rewrite Heq, lookup_delete_ne.
      * right. split; [done |]. exists e'.
        by rewrite lookup_delete_ne in He'.
  - exists (EvMapLoad g k :: EvMapDelete g k :: tr). split; [|split].
    + rewrite Hlog. by rewrite <- !app_assoc.
    + by do 2 constructor.
    + intros k' Hk'. do 2 (constructor; [done |]). apply Hcalls.
      destruct (decide (k = k')) as [->|Hne];
        [apply lookup_delete_eq | by rewrite lookup_delete_ne].
Qed.

Lemma loop_final order : ∀ s g g0 now,
  mu s = Some g0 →
  loop_post now g0 s (final (rangeEntries g order (visit g now) s)).
Proof.
  induction order as [|k rest IH]; intros s g g0 now Hmu.
  { simpl. by apply loop_post_refl. }
  rewrite (loop_step s g g0) by done. simpl.
  destruct (entries s !! k) as [e|] eqn:Hk.
  2:{ apply (loop_post_load now g0 g k). by apply IH. }
  destruct (due now e) eqn:Hdue.
  2:{ apply (loop_post_load now g0 g k). by apply IH. }
  destruct (perpetual e) eqn:Hperp.
  2:{ apply (loop_post_delete now g0 g k e); [done.. |]. by apply IH. }
  assert (Hstuck : ∀ s1, mu s1 = Some g0 → bg s1 = bg s →
            entries s1 = entries s →
            (∃ tr, log s1 = log s ++ tr ∧
               Forall (λ ev, is_sync ev = false) tr ∧
               Forall (λ ev, ∀ k', k' ≠ k → is_call_for k' ev = false) tr) →
            loop_post now g0 s s1).
  { intros s1 Hmu1 Hbg1 Hent1 (tr & Hlog & Hsync & Htr).
    split; [done |]. split; [done |]. split; [left; by rewrite Hent1 |].
    exists tr. split; [done |]. split; [done |]. intros k' Hk'.
    eapply Forall_impl; [exact Htr |]. simpl. intros ev Hev. apply Hev.
    intros ->. by rewrite Hk in Hk'. }
  destruct (fn e) as [gen|]; simpl; apply Hstuck; simpl; try done.
  - exists [EvMapLoad g k; EvCall g k].
    split; [by rewrite <- app_assoc |]. split; [by do 2 constructor |].
    apply Forall_cons. split; [done |].
    apply Forall_cons. split; [| by apply Forall_nil].
    intros k' Hne. apply bool_decide_eq_false. congruence.
  - exists [EvMapLoad g k]. split; [done |]. split; [by constructor |].
    apply Forall_cons. split; [done | by apply Forall_nil].
Qed.

(** With a due perpetual entry among the bindings still to come, the loop
    ends parked in [expire]'s [c.Lock()], right after a generator call. *)
Lemma loop_parks order : ∀ s g g0 now k e,
  mu s = Some g0 → callable_inv s → k ∈ order →
  entries s !! k = Some e → perpetual e = true → due now e = true →
  ∃ s' k', rangeEntries g order (visit g now) s = Blocked s'
           ∧ last (log s') = Some (EvCall g k').
Proof.
  induction order as [|k0 rest IH]; intros s g g0 now k e Hmu Hinv Hin Hk Hperp Hdue.
  { by apply elem_of_nil in Hin. }
  rewrite (loop_step s g g0) by done. simpl.
  assert (Hrest : k0 ≠ k → k ∈ rest).
  { intros Hne. apply elem_of_cons in Hin as [->|]; done. }
  destruct (entries s !! k0) as [e0|] eqn:Hk0.
  2:{ apply (IH _ g g0 now k e); try done. apply Hrest. congruence. }
  destruct (due now e0) eqn:Hdue0.
  2:{ apply (IH _ g g0 now k e); try done. apply Hrest. congruence. }
  destruct (perpetual e0) eqn:Hperp0.
  2:{ assert (k0 ≠ k) by congruence.
      apply (IH _ g g0 now k e); simpl; try done.
      - by apply map_Forall_delete.
      - by apply Hrest.
      - by rewrite lookup_delete_ne. }
  pose proof (Hinv k0 e0 Hk0) as Hcall. unfold callable in Hcall.
  rewrite Hperp0 in Hcall. destruct (fn e0) as [gen|]; [|done].
  eexists _, k0. split; [done |]. simpl. apply last_snoc.
Qed.

(** With no due perpetual entry anywhere, the loop runs to its end and
    has evicted the due entries it visited. *)
Lemma loop_evicts order : ∀ s g g0 now,
  mu s = Some g0 →
  (∀ k e, entries s !! k = Some e → due now e = true → perpetual e = false) →
  ∃ s', rangeEntries g order (visit g now) s = Ret tt s'
        ∧ env s' = env s
        ∧ ∀ k, entries s' !! k =
               if decide (k ∈ order) then entries s !! k ≫= evict now
               else entries s !! k.
Proof.
  induction order as [|k0 rest IH]; intros s g g0 now Hmu Hplain.
  { exists s. split; [done |]. split; [done |]. intros k.
    by rewrite decide_False by apply not_elem_of_nil. }
  rewrite (loop_step s g g0) by done. simpl.
  assert (Hsame : ∀ s1, mu s1 = Some g0 → env s1 = env s → entries s1 = entries s →
            entries s !! k0 ≫= evict now = entries s !! k0 →
            ∃ s', rangeEntries g rest (visit g now) s1 = Ret tt s'
                  ∧ env s' = env s
                  ∧ ∀ k, entries s' !! k =
                      if decide (k ∈ k0 :: rest) then entries s !! k ≫= evict now
                      else entries s !! k).
  { intros s1 Hmu1 Henv1 Hent1 Hk0.
    destruct (IH s1 g g0 now Hmu1) as (s' & Hrun & Henv & Hent).
    { by rewrite Hent1. }
    exists s'. split; [done |]. split; [congruence |]. intros k.
    rewrite Hent, Hent1.
    destruct (decide (k ∈ rest)) as [Hin|Hnin].
    - rewrite decide_True; [done | by apply elem_of_cons; right].
    - destruct (decide (k = k0)) as [->|Hne].
      + rewrite decide_True; [done | by apply elem_of_cons; left].
      + rewrite decide_False; [done |].
        intros [?|?]%elem_of_cons; done. }
  destruct (entries s !! k0) as [e0|] eqn:Hk0.
  2:{ by apply Hsame. }
  destruct (due now e0) eqn:Hdue0.
  2:{ apply Hsame; try done. simpl. unfold evict. by rewrite Hdue0. }
  rewrite (Hplain k0 e0 Hk0 Hdue0).
  edestruct (IH (emit (EvMapDelete g k0)
                  (set_entries (delete k0 (entries s)) (emit (EvMapLoad g k0) s)))
               g g0 now) as (s' & Hrun & Henv & Hent); [done | |].
  { simpl. intros k e He. apply (Hplain k).
    apply lookup_delete_Some in He. by destruct He. }
  exists s'. split; [done |]. split; [done |]. intros k.
  rewrite Hent. simpl.
  destruct (decide (k = k0)) as [->|Hne].
  - rewrite lookup_delete_eq, Hk0. simpl. unfold evict. rewrite Hdue0.
    rewrite (decide_True (P := k0 ∈ k0 :: rest)) by (apply elem_of_cons; by left).
    by destruct (decide (k0 ∈ rest)).
  - rewrite lookup_delete_ne by done.
    destruct (decide (k ∈ rest)) as [Hin|Hnin].
    + rewrite decide_True; [done | by apply elem_of_cons; right].
    + rewrite decide_False; [done |].
      intros [?|?]%elem_of_cons; done.
Qed.

(** ** Whole sweeps *)

Lemma swept_refl now s : swept now s s.
Proof.
  split; [by left |]. exists []. split; [by rewrite app_nil_r |].
  intros; by constructor.
Qed.

Lemma sweep_frame s g order :
  let s' := final (sweep g order s) in
  bg s' = bg s ∧ swept (clock (env s)) s s'.
Proof.
  destruct (mu s) as [g0|] eqn:Hmu.
  { rewrite sweep_blocks by (by rewrite Hmu). simpl.
    split; [done | apply swept_refl]. }
  rewrite sweep_unfold by done. simpl.
  set (s1 := emit (EvLock g) (set_mu (Some g) s)).
  destruct (loop_final order s1 g g (clock (env s)) eq_refl)
    as (Hmu2 & Hbg & Hent & tr & Hlog & _ & Hcalls).
  unfold bind.
  destruct (rangeEntries g order _ s1) as [[] s2|s2|s2]; simpl in *.
  - unfold Unlock. rewrite Hmu2. simpl. split; [done |]. split; [done |].
    exists (EvLock g :: tr ++ [EvUnlock g]). split.
    + simpl. rewrite Hlog. by rewrite <- !app_assoc.
    + intros k Hk. constructor; [done |]. apply Forall_app. split.
      * by apply Hcalls.
      * by repeat constructor.
  - split; [done |]. split; [done |].
    exists (EvLock g :: tr). split.
    + rewrite Hlog. by rewrite <- !app_assoc.
    + intros k Hk. constructor; [done | by apply Hcalls].
  - split; [done |]. split; [done |].
    exists (EvLock g :: tr). split.
    + rewrite Hlog. by rewrite <- !app_assoc.
    + intros k Hk. constructor; [done | by apply Hcalls].
Qed.

Lemma sweep_parks s g order k e :
  mu s = None → callable_inv s → k ∈ order →
  entries s !! k = Some e → perpetual e = true → due (clock (env s)) e = true →
  ∃ s' k' tr,
    sweep g order s = Blocked s'
    ∧ mu s' = Some g ∧ bg s' = bg s
    ∧ entries s' !! k = Some e
    ∧ log s' = log s ++ EvLock g :: tr ++ [EvCall g k']
    ∧ Forall (λ ev, is_sync ev = false) tr.
Proof.
  intros Hmu Hinv Hin Hk Hperp Hdue.
  rewrite sweep_unfold by done.
  set (s1 := emit (EvLock g) (set_mu (Some g) s)).
  destruct (loop_parks order s1 g g (clock (env s)) k e) as (s' & k' & Hrun & Hlast);
    try done.
  destruct (loop_final order s1 g g (clock (env s)) eq_refl)
    as (Hmu2 & Hbg & Hent & tr & Hlog & Hsync & _).
  rewrite Hrun in Hmu2, Hbg, Hent, Hlog. simpl in *.
  destruct tr as [|c tr _] using rev_ind.
  { rewrite Hlog, app_nil_r, last_snoc in Hlast. done. }
  rewrite Hlog, app_assoc, last_snoc in Hlast. injection Hlast as ->.
  exists s', k', tr. unfold bind. rewrite Hrun.
  split; [done |]. split; [done |]. split; [done |]. split; [|split].
  - destruct (Hent k) as [Heq | (_ & e' & He' & Hplain & _)]; [by rewrite Heq |].
    rewrite Hk in He'. congruence.
  - rewrite Hlog. by rewrite <- !app_assoc.
  - by apply Forall_app in Hsync as [? _].
Qed.

Lemma sweep_evicts s g order :
  mu s = None →
  (∀ k, is_Some (entries s !! k) → k ∈ order) →
  (∀ k e, entries s !! k = Some e → due (clock (env s)) e = true → perpetual e = false) →
  ∃ s', sweep g order s = Ret tt s'
        ∧ mu s' = None ∧ env s' = env s ∧ bg s' = bg s
        ∧ entries s' = omap (evict (clock (env s))) (entries s).
Proof.
  intros Hmu Hcover Hplain.
  rewrite sweep_unfold by done.
  set (s1 := emit (EvLock g) (set_mu (Some g) s)).
  destruct (loop_evicts order s1 g g (clock (env s)) eq_refl Hplain)
    as (s2 & Hrun & Henv & Hent).
  destruct (loop_final order s1 g g (clock (env s)) eq_refl)
    as (Hmu2 & Hbg & _).
  rewrite Hrun in Hmu2, Hbg. simpl in *.
  unfold bind. rewrite Hrun. unfold Unlock. rewrite Hmu2.
  eexists. split; [done |]. simpl. repeat (split; [done |]).
  apply map_eq. intros k. rewrite Hent, lookup_omap.
  destruct (decide (k ∈ order)) as [|Hnin]; [done |].
  destruct (entries s !! k) eqn:Hk; [|done].
  destruct Hnin. apply Hcover. by rewrite Hk.
Qed.

(** ** Histories *)

Lemma StorePerpetual_blocks s g k gen d :
  mu s ≠ None →
  StorePerpetual g k (Some gen) d s =
    Blocked (emit (EvCall g k) (set_env (gen (env s)).2 s)).
Proof. intros Hmu. step_m. by destruct (mu s). Qed.

Lemma run_app ops1 ops2 s : run (ops1 ++ ops2) s = run ops2 (run ops1 s).
Proof. apply fold_left_app. Qed.

Lemma tick_frame s order :
  swept (clock (env s)) s (tick order s).
Proof.
  unfold tick. destruct (bg s); try apply swept_refl.
  destruct (sweep_frame s Sweeper order) as [_ Hswept].
  by destruct (sweep Sweeper order s).
Qed.

Lemma step_absent k s op :
  entries s !! k = None → ¬ stores k op → untouched k s (step s op).
Proof.
  intros Hk Hop.
  assert (Hsame : untouched k s s).
  { split; [done |]. exists []. by rewrite app_nil_r. }
  destruct op as [g k' v d|g k' f d|g k'|g k'|g|order|d]; simpl in *.
  - destruct (mu s) eqn:Hmu.
    + by rewrite Store_blocks by (by rewrite Hmu).
    + rewrite Store_returns by done. simpl.
      split; [simpl; by rewrite lookup_insert_ne |].
      eexists. split; [done |]. by repeat constructor.
  - assert (Hcall : is_call_for k (EvCall g k') = false).
    { apply bool_decide_eq_false. done. }
    destruct f as [gen|]; [|done].
    destruct (mu s) eqn:Hmu.
    + rewrite StorePerpetual_blocks by (by rewrite Hmu). simpl.
      split; [done |]. eexists. split; [done |]. by repeat constructor.
    + rewrite StorePerpetual_returns by done. simpl.
      split; [simpl; by rewrite lookup_insert_ne |].
      eexists. split; [done |]. by repeat constructor.
  - split; [by apply lookup_delete_None; right |].
    eexists. split; [done |]. by repeat constructor.
  - destruct (mu s) eqn:Hmu.
    + by rewrite Get_blocks by (by rewrite Hmu).
    + rewrite Get_returns by done. simpl.
      split; [done |]. eexists. split; [done |]. by repeat constructor.
  - unfold Free. by destruct (bg s).
  - destruct (tick_frame s order) as [Hent (tr & Hlog & Hcalls)].
    split.
    + destruct (Hent k) as [Heq | [Heq _]]; [by rewrite Heq | done].
    + exists tr. split; [done | by apply Hcalls].
  - done.
Qed.

Lemma run_absent k ops : ∀ s,
  entries s !! k = None → Forall (λ op, ¬ stores k op) ops →
  untouched k s (run ops s).
Proof.
  induction ops as [|op ops IH]; intros s Hk Hops.
  { split; [done |]. exists []. by rewrite app_nil_r. }
  apply Forall_cons in Hops as [Hop Hops].
  destruct (step_absent k s op Hk Hop) as (Hk1 & tr1 & Hlog1 & Hcalls1).
  destruct (IH (step s op) Hk1 Hops) as (Hk2 & tr2 & Hlog2 & Hcalls2).
  split; [done |]. exists (tr1 ++ tr2). split.
  - simpl. rewrite Hlog2, Hlog1. by rewrite <- app_assoc.
  - by apply Forall_app.
Qed.

(** Once the sweeping goroutine is parked with the mutex in its hands,
    nothing that can still happen gives the mutex back. *)
Lemma parked_step s op :
  mu s = Some Sweeper → bg s = Parked →
  mu (step s op) = Some Sweeper ∧ bg (step s op) = Parked.
Proof.
  intros Hmu Hbg.
  destruct op as [g k v d|g k f d|g k|g k|g|order|d]; simpl.
  - by rewrite Store_blocks by (by rewrite Hmu).
  - destruct f as [gen|]; [|done].
    by rewrite StorePerpetual_blocks by (by rewrite Hmu).
  - done.
  - by rewrite Get_blocks by (by rewrite Hmu).
  - unfold Free. by rewrite Hbg.
  - unfold tick. by rewrite Hbg.
  - done.
Qed.

Lemma parked_run ops : ∀ s,
  mu s = Some Sweeper → bg s = Parked →
  mu (run ops s) = Some Sweeper ∧ bg (run ops s) = Parked.
Proof.
  induction ops as [|op ops IH]; intros s Hmu Hbg; [done |].
  destruct (parked_step s op Hmu Hbg) as [Hmu1 Hbg1]. simpl. by apply IH.
Qed.

(** A sweep over entries that all can be called does not panic: started
    with the mutex free it returns with the mutex free again, or parks
    with the mutex in its hands. *)
Lemma loop_no_panic order : ∀ s g g0 now s',
  mu s = Some g0 → callable_inv s →
  rangeEntries g order (visit g now) s ≠ Panic s'.
Proof.
  induction order as [|k rest IH]; intros s g g0 now s' Hmu Hinv; [done |].
  rewrite (loop_step s g g0) by done. simpl.
  destruct (entries s !! k) as [e|] eqn:Hk; [|by apply (IH _ g g0)].
  destruct (due now e); [|by apply (IH _ g g0)].
  destruct (perpetual e) eqn:Hperp.
  - pose proof (Hinv k e Hk) as Hcall. unfold callable in Hcall.
    rewrite Hperp in Hcall. by destruct (fn e).
  - apply (IH _ g g0); [done |]. by apply map_Forall_delete.
Qed.

Lemma sweep_outcome s g order :
  mu s = None → callable_inv s →
  (∃ s', sweep g order s = Ret tt s' ∧ mu s' = None)
  ∨ (∃ s', sweep g order s = Blocked s' ∧ mu s' = Some g).
Proof.
  intros Hmu Hinv. rewrite sweep_unfold by done.
  set (s1 := emit (EvLock g) (set_mu (Some g) s)).
  destruct (loop_final order s1 g g (clock (env s)) eq_refl) as (Hmu2 & _).
  pose proof (loop_no_panic order s1 g g (clock (env s))) as Hpanic.
  unfold bind.
  destruct (rangeEntries g order _ s1) as [[] s2|s2|s2]; simpl in Hmu2.
  - left. unfold Unlock. rewrite Hmu2. by eexists.
  - right. by eexists.
  - by destruct (Hpanic s2).
Qed.

(** ** Invariants on the entries *)

Lemma swept_Forall (P : CacheEntry → Prop) now s s' :
  swept now s s' →
  map_Forall (λ _ e, P e) (entries s) → map_Forall (λ _ e, P e) (entries s').
Proof.
  intros [Hent _] Hinv k e He.
  destruct (Hent k) as [Heq | [Heq _]]; [|congruence].
  apply (Hinv k). by rewrite <- Heq.
Qed.

Lemma Store_Forall (P : CacheEntry → Prop) s g k v d :
  P (plain_entry (clock (env s)) v d) →
  map_Forall (λ _ e, P e) (entries s) →
  map_Forall (λ _ e, P e) (entries (final (Store g k v d s))).
Proof.
  intros Hnew Hinv. destruct (mu s) eqn:Hmu.
  - by rewrite Store_blocks by (by rewrite Hmu).
  - rewrite Store_returns by done. simpl. by apply map_Forall_insert_2.
Qed.

Lemma StorePerpetual_Forall (P : CacheEntry → Prop) s g k f d :
  (∀ gen, f = Some gen →
     P (perpetual_entry (clock (env s)) (gen (env s)).1 gen d)) →
  map_Forall (λ _ e, P e) (entries s) →
  map_Forall (λ _ e, P e) (entries (final (StorePerpetual g k f d s))).
Proof.
  intros Hnew Hinv. destruct f as [gen|]; [|done].
  destruct (mu s) eqn:Hmu.
  - by rewrite StorePerpetual_blocks by (by rewrite Hmu).
  - rewrite StorePerpetual_returns by done. simpl.
    apply map_Forall_insert_2; [by apply Hnew | done].
Qed.

Lemma Get_entries s g k : entries (final (Get g k s)) = entries s.
Proof.
  destruct (mu s) eqn:Hmu.
  - by rewrite Get_blocks by (by rewrite Hmu).
  - by rewrite Get_returns by done.
Qed.

(** Every perpetual entry of a cache that started empty has a generator:
    [StorePerpetual] panics on a nil one before it gets to the map. *)
Lemma callable_step s op : callable_inv s → callable_inv (step s op).
Proof.
  intros Hinv. unfold callable_inv in *.
  destruct op as [g k v d|g k f d|g k|g k|g|order|d]; simpl.
  - by apply Store_Forall.
  - by apply StorePerpetual_Forall; [intros gen _ |].
  - by apply map_Forall_delete.
  - by rewrite Get_entries.
  - unfold Free. by destruct (bg s).
  - eapply (swept_Forall (λ e, callable e = true)); [apply tick_frame | done].
  - done.
Qed.

Lemma callable_run ops : ∀ s, callable_inv s → callable_inv (run ops s).
Proof.
  induction ops as [|op ops IH]; intros s Hinv; [done |].
  simpl. by apply IH, callable_step.
Qed.

Lemma callable_reachable w (ops : list (@Op K V U)) :
  callable_inv (run ops (NewCache w)).
Proof. apply callable_run, map_Forall_empty. Qed.

Lemma settled_step s op : settled s → settled (step s op).
Proof.
  intros [Hinv Hmu]. split; [by apply callable_step |].
  destruct Hmu as [Hmu | [Hmu Hbg]]; [|right; by apply parked_step].
  destruct op as [g k v d|g k f d|g k|g k|g|order|d]; simpl.
  - left. by rewrite Store_returns.
  - left. destruct f as [gen|]; [|done]. by rewrite StorePerpetual_returns.
  - by left.
  - left. by rewrite Get_returns.
  - left. unfold Free. by destruct (bg s).
  - unfold tick. destruct (bg s) eqn:Hbg; try by left.
    destruct (sweep_outcome s Sweeper order Hmu Hinv)
      as [(s' & -> & Hmu') | (s' & -> & Hmu')]; [by left | by right].
  - by left.
Qed.

Lemma mutex_between_steps w (ops : list (@Op K V U)) :
  settled (run ops (NewCache w)).
Proof.
  assert (Hrun : ∀ (ops : list (@Op K V U)) s, settled s → settled (run ops s)).
  { clear ops. induction ops as [|op ops IH]; intros s Hs; [done |].
    simpl. by apply IH, settled_step. }
  apply Hrun. split; [apply map_Forall_empty | by left].
Qed.

(** ** Store, StorePerpetual, Get, Delete *)



(** Claim C8.  [Get] never panics; with the mutex free it returns the
    value of the entry under the key when there is one and nil when there
    is none, and leaves the map as it was; and in a cache that was never
    stored to under [k], whatever else happened to it, a [Get] of [k]
    that returns returns nil. *)
Theorem Get_spec s g k :
  (∀ s', Get g k s ≠ Panic s')
  ∧ (mu s = None →
     ∃ s', Get g k s =
             Ret (match entries s !! k with
                  | Some e => value e
                  | None => nil_value
                  end) s'
           ∧ entries s' = entries s ∧ mu s' = None)
  ∧ (∀ w ops v s',
       Forall (λ op, ¬ stores k op) ops →
       Get g k (run ops (NewCache w)) = Ret v s' → v = nil_value).
Proof.
  split; [apply Get_no_panic |]. split.
  - intros Hmu. rewrite Get_returns by done. by eexists.
  - intros w ops v s' Hops Hget.
    destruct (run_absent k ops (NewCache w)) as [Hk _]; [done.. |].
    destruct (mu (run ops (NewCache w))) eqn:Hmu.
    + rewrite Get_blocks in Hget by (by rewrite Hmu). done.
    + rewrite Get_returns, Hk in Hget by done. congruence.
Qed.

(** Claim C10.  With the mutex free, a [Get] right after
    [Store g k nil d] returns nil, which is what a [Get] returns for a
    key that has no entry. *)
Theorem nil_is_a_miss s g k d :
  mu s = None →
  ∃ s1 s2,
    Store g k nil_value d s = Ret tt s1
    ∧ is_Some (entries s1 !! k)
    ∧ Get g k s1 = Ret nil_value s2
    ∧ ∀ s0 k0, mu s0 = None → entries s0 !! k0 = None →
        ∃ s3, Get g k0 s0 = Ret nil_value s3.
Proof.
  intros Hmu. rewrite Store_returns by done.
  eexists _, _. split; [done |]. simpl. split; [|split].
  - by rewrite lookup_insert_eq.
  - rewrite Get_returns by done. simpl. by rewrite lookup_insert_eq.
  - intros s0 k0 Hmu0 Hk0. rewrite Get_returns, Hk0 by done. by eexists.
Qed.


(** Claim C2 (refuted on the code).  [Delete] touches the map and
    nothing else: it returns having neither locked nor unlocked the
    mutex, so that unless the caller happens to hold the mutex already the
    deletion is made outside of it, even while another goroutine holds
    it. [Store], with the mutex free, makes its change to the map between
    a lock and an unlock of its own. *)
Theorem Delete_takes_no_lock s g k :
  ∃ s1,
    Delete g k s = Ret tt s1
    ∧ entries s1 = delete k (entries s)
    ∧ mu s1 = mu s
    ∧ log s1 = log s ++ [EvMapDelete g k]
    ∧ (mu s ≠ Some g → disciplined (mu s) [EvMapDelete g k] = false)
    ∧ ∀ v d, mu s = None →
        ∃ s2, Store g k v d s = Ret tt s2
              ∧ log s2 = log s ++ [EvLock g; EvMapStore g k; EvUnlock g]
              ∧ disciplined (mu s) [EvLock g; EvMapStore g k; EvUnlock g] = true.
Proof.
  rewrite Delete_returns. eexists. split; [done |]. simpl.
  repeat (split; [done |]). split.
  - intros Hmu. unfold holds. rewrite bool_decide_eq_false_2; done.
  - intros v d Hmu. rewrite Store_returns by done. eexists.
    split; [done |]. split; [done |]. simpl. unfold holds.
    by rewrite bool_decide_eq_true_2.
Qed.

(** ** The sweep and the perpetual entries *)

Lemma range_order_covers s order k :
  range_order (entries s) order → is_Some (entries s !! k) → k ∈ order.
Proof. intros [_ Hcover] Hk. by apply Hcover. Qed.

Lemma tick_parks s order k e :
  mu s = None → bg s = Polling → callable_inv s → k ∈ order →
  entries s !! k = Some e → perpetual e = true → due (clock (env s)) e = true →
  ∃ s', sweep Sweeper order s = Blocked s'
        ∧ tick order s = set_bg Parked s'
        ∧ mu s' = Some Sweeper
        ∧ entries s' !! k = Some e.
Proof.
  intros Hmu Hbg Hinv Hin Hk Hperp Hdue.
  destruct (sweep_parks s Sweeper order k e) as (s' & k' & tr & Hrun & Hmu' & _ & Hk' & _);
    try done.
  exists s'. unfold tick. by rewrite Hbg, Hrun.
Qed.

(** Claim C1 (refuted on the code).  When some perpetual entry is due,
    the sweep locks the mutex, calls a generator with the mutex in its
    hands - nothing unlocks between its [Lock] and the call - and then
    parks in the [c.Lock()] of [expire], waiting for the mutex it holds
    itself.  No unlock ever follows: whatever happens next, every [Get]
    parks as well. *)
Theorem sweep_parks_on_its_own_lock s order k e :
  mu s = None → bg s = Polling → callable_inv s →
  range_order (entries s) order →
  entries s !! k = Some e → perpetual e = true → due (clock (env s)) e = true →
  ∃ s' k' tr,
    sweep Sweeper order s = Blocked s'
    ∧ mu s' = Some Sweeper
    ∧ log s' = log s ++ EvLock Sweeper :: tr ++ [EvCall Sweeper k']
    ∧ Forall (λ ev, is_sync ev = false) tr
    ∧ ∀ ops g key,
        Get g key (run ops (tick order s)) = Blocked (run ops (tick order s)).
Proof.
  intros Hmu Hbg Hinv Horder Hk Hperp Hdue.
  assert (Hin : k ∈ order) by (by eapply range_order_covers).
  destruct (sweep_parks s Sweeper order k e) as (s' & k' & tr & Hrun & Hmu' & _ & _ & Hlog & Hsync);
    try done.
  exists s', k', tr. repeat (split; [done |]).
  intros ops g key.
  destruct (parked_run ops (tick order s)) as [Hmu2 _].
  - unfold tick. by rewrite Hbg, Hrun.
  - unfold tick. by rewrite Hbg, Hrun.
  - apply Get_blocks. by rewrite Hmu2.
Qed.

(** Claim C3 (refuted on the code).  When a perpetual entry is due, the
    sweep does not come to an end: it parks, and the due perpetual entry
    still has the value and the expiry it had, neither replaced nor
    recomputed.  The sweeping goroutine being parked, later ticks change
    nothing at all any more, whatever is due by then. *)
Theorem sweep_never_regenerates s order k e :
  mu s = None → bg s = Polling → callable_inv s →
  range_order (entries s) order →
  entries s !! k = Some e → perpetual e = true → due (clock (env s)) e = true →
  ∃ s',
    sweep Sweeper order s = Blocked s'
    ∧ entries s' !! k = Some e
    ∧ entries (tick order s) !! k = Some e
    ∧ ∀ ops, Forall (λ op, ∃ order', op = OpTick order' ∨ ∃ d, op = OpSleep d) ops →
        entries (run ops (tick order s)) = entries (tick order s).
Proof.
  intros Hmu Hbg Hinv Horder Hk Hperp Hdue.
  assert (Hin : k ∈ order) by (by eapply range_order_covers).
  destruct (tick_parks s order k e) as (s' & Hrun & Htick & Hmu' & Hk'); try done.
  exists s'. split; [done |]. split; [done |]. rewrite Htick.
  split; [done |].
  assert (Hgen : ∀ ops s0, bg s0 = Parked →
            Forall (λ op, ∃ order', op = OpTick order' ∨ ∃ d, op = OpSleep d) ops →
            entries (run ops s0) = entries s0).
  { induction ops as [|op ops IH]; intros s0 Hbg0 Hops; [done |].
    apply Forall_cons in Hops as [(order' & [-> | [d ->]]) Hops]; simpl.
    - unfold tick. rewrite Hbg0. by apply IH.
    - by rewrite IH. }
  intros ops Hops. by apply Hgen.
Qed.


(** Claim C4 (refuted on the code).  Store a perpetual entry, let its
    lifetime go by, and let the timer tick: the entry is still there, but
    with the value of the first call, and from then on, whatever else
    happens, no [Get] of the key returns any more.  The entry does stay
    in the map: further ticks do not touch it. *)
Theorem perpetual_entry_never_refreshed s g k gen d delta order :
  mu s = None → bg s = Polling → callable_inv s →
  let s2 := sleep delta (final (StorePerpetual g k (Some gen) d s)) in
  (UnixNano (clock (env s) + d) ≤ UnixNano (clock (env s2)))%Z →
  range_order (entries s2) order →
  let s3 := tick order s2 in
  let stale := mkEntry (gen (env s)).1 (clock (env s) + d)%Z true (Some gen) d in
  entries s3 !! k = Some stale
  ∧ (∀ orders, entries (run (OpTick <$> orders) s3) !! k = Some stale)
  ∧ ∀ ops g', Get g' k (run ops s3) = Blocked (run ops s3).
Proof.
  intros Hmu Hbg Hinv s2 Helapsed Horder s3 stale.
  assert (Hs2 : entries s2 = <[k := stale]> (entries s)
                ∧ mu s2 = None ∧ bg s2 = Polling).
  { unfold s2. by rewrite StorePerpetual_returns by done. }
  destruct Hs2 as (Hent & Hmu2 & Hbg2).
  assert (Hk : entries s2 !! k = Some stale).
  { rewrite Hent. apply lookup_insert_eq. }
  assert (Hin : k ∈ order).
  { eapply range_order_covers; [done |]. by rewrite Hk. }
  destruct (tick_parks s2 order k stale) as (s' & Hrun & Htick & Hmu' & Hk'); try done.
  { unfold callable_inv. rewrite Hent. by apply map_Forall_insert_2. }
  { unfold due. by apply bool_decide_eq_true. }
  unfold s3.
  rewrite Htick. split; [done |]. split.
  - intros orders. induction orders as [|o orders IH] using rev_ind; [done |].
    rewrite fmap_app, run_app. simpl. unfold tick.
    destruct (parked_run (OpTick <$> orders) (set_bg Parked s')) as [_ ->]; done.
  - intros ops g'.
    destruct (parked_run ops (set_bg Parked s')) as [Hmu3 _]; [done.. |].
    apply Get_blocks. by rewrite Hmu3.
Qed.

(** Property X16.  What of C4 holds: no sweep, however it ends, removes
    a perpetual entry or changes it. *)
Lemma sweep_keeps_perpetual s g order k e :
  entries s !! k = Some e → perpetual e = true →
  entries (final (sweep g order s)) !! k = Some e.
Proof.
  intros Hk Hperp.
  destruct (sweep_frame s g order) as (_ & Hent & _).
  destruct (Hent k) as [Heq | (_ & e' & He' & Hplain & _)]; [by rewrite Heq |].
  rewrite Hk in He'. congruence.
Qed.

(** ** The shape of the entries *)

Lemma shape_ok_plain (now : Z) v d :
  shape_ok (plain_entry now v d : CacheEntry) = true.
Proof. reflexivity. Qed.




(** * Further properties of the code *)

(** ** Expiry of plain entries *)


(** Property X2.  An entry that is not due is left as it is by a sweep
    and by a tick, whichever way the sweep ends and whatever the order
    of the iteration. *)
Theorem not_due_survives s order k e :
  entries s !! k = Some e → due (clock (env s)) e = false →
  entries (tick order s) !! k = Some e
  ∧ ∀ g, entries (final (sweep g order s)) !! k = Some e.
Proof.
  intros Hk Hdue.
  assert (Hkept : ∀ s', swept (clock (env s)) s s' → entries s' !! k = Some e).
  { intros s' [Hent _].
    destruct (Hent k) as [Heq | (_ & e' & He' & _ & Hdue')]; [by rewrite Heq |].
    rewrite Hk in He'. injection He' as <-. congruence. }
  split.
  - apply Hkept, tick_frame.
  - intros g. apply Hkept. by destruct (sweep_frame s g order).
Qed.

(** Property X3.  What a sweep that finds no perpetual entry due leaves
    in the map does not depend on the order in which Go produces the
    keys, and a second sweep at the same instant removes nothing more. *)
Theorem sweep_order_irrelevant s order1 order2 :
  mu s = None →
  range_order (entries s) order1 → range_order (entries s) order2 →
  (∀ k e, entries s !! k = Some e → due (clock (env s)) e = true → perpetual e = false) →
  ∃ s1 s2 s3,
    sweep Sweeper order1 s = Ret tt s1
    ∧ sweep Sweeper order2 s = Ret tt s2
    ∧ entries s1 = entries s2
    ∧ sweep Sweeper order1 s1 = Ret tt s3
    ∧ entries s3 = entries s1.
Proof.
  intros Hmu [_ Hcover1] [_ Hcover2] Hplain.
  destruct (sweep_evicts s Sweeper order1) as (s1 & Hrun1 & Hmu1 & Henv1 & _ & Hent1);
    try done.
  { intros k. apply Hcover1. }
  destruct (sweep_evicts s Sweeper order2) as (s2 & Hrun2 & _ & _ & _ & Hent2);
    try done.
  { intros k. apply Hcover2. }
  assert (Hsub : ∀ k e, entries s1 !! k = Some e →
            entries s !! k = Some e ∧ due (clock (env s)) e = false).
  { intros k e. rewrite Hent1, lookup_omap.
    destruct (entries s !! k) as [e0|]; [|done]. simpl. unfold evict.
    destruct (due (clock (env s)) e0) eqn:Hdue; [done |]. by intros [= <-]. }
  destruct (sweep_evicts s1 Sweeper order1) as (s3 & Hrun3 & _ & _ & _ & Hent3);
    try done.
  { intros k [e He]. apply Hcover1. destruct (Hsub k e He) as [-> _]. by eexists. }
  { rewrite Henv1. intros k e He Hdue. destruct (Hsub k e He). congruence. }
  exists s1, s2, s3. repeat (split; [done |]). split; [congruence |].
  split; [done |]. rewrite Hent3, Henv1. apply map_eq. intros k.
  rewrite lookup_omap.
  destruct (entries s1 !! k) as [e|] eqn:He; [|done]. simpl.
  destruct (Hsub k e He) as [_ Hdue]. unfold evict. by rewrite Hdue.
Qed.


(** ** The lock discipline of everything but [Delete] *)

Lemma disciplined_quiet g (tr tr' : list (@Event K)) :
  Forall (λ ev, is_sync ev = false ∧ actor ev = g) tr →
  disciplined (Some g) (tr ++ tr') = disciplined (Some g) tr'.
Proof.
  induction 1 as [|ev tr [Hsync Hactor] _ IH]; [done |].
  assert (Hholds : holds (Some g) g = true) by (by apply bool_decide_eq_true_2).
  destruct ev; simpl in *; try done; subst; by rewrite ?Hholds.
Qed.

Lemma loop_actor order : ∀ s g g0 now,
  mu s = Some g0 →
  ∃ tr, log (final (rangeEntries g order (visit g now) s)) = log s ++ tr
        ∧ Forall (λ ev, is_sync ev = false ∧ actor ev = g) tr.
Proof.
  induction order as [|k rest IH]; intros s g g0 now Hmu.
  { exists []. by rewrite app_nil_r. }
  rewrite (loop_step s g g0) by done. simpl.
  assert (Hgo : ∀ s1 pre, mu s1 = Some g0 → log s1 = log s ++ pre →
            Forall (λ ev, is_sync ev = false ∧ actor ev = g) pre →
            ∃ tr, log (final (rangeEntries g rest (visit g now) s1)) = log s ++ tr
                  ∧ Forall (λ ev, is_sync ev = false ∧ actor ev = g) tr).
  { intros s1 pre Hmu1 Hlog1 Hpre.
    destruct (IH s1 g g0 now Hmu1) as (tr & Hlog & Htr).
    exists (pre ++ tr). split; [|by apply Forall_app].
    by rewrite Hlog, Hlog1, <- app_assoc. }
  destruct (entries s !! k) as [e|].
  2:{ apply (Hgo _ [EvMapLoad g k]); [done.. |]. by repeat constructor. }
  destruct (due now e).
  2:{ apply (Hgo _ [EvMapLoad g k]); [done.. |]. by repeat constructor. }
  destruct (perpetual e).
  2:{ apply (Hgo _ [EvMapLoad g k; EvMapDelete g k]); [done | |].
      - simpl. by rewrite <- app_assoc.
      - by repeat constructor. }
  destruct (fn e) as [gen|]; simpl.
  - exists [EvMapLoad g k; EvCall g k].
    split; [by rewrite <- app_assoc | by repeat constructor].
  - exists [EvMapLoad g k]. split; [done | by repeat constructor].
Qed.

Lemma sweep_trace s g order :
  ∃ tr, log (final (sweep g order s)) = log s ++ tr
        ∧ disciplined (mu s) tr = true.
Proof.
  destruct (mu s) as [g0|] eqn:Hmu.
  { rewrite sweep_blocks by (by rewrite Hmu). exists []. by rewrite app_nil_r. }
  rewrite sweep_unfold by done.
  set (s1 := emit (EvLock g) (set_mu (Some g) s)).
  destruct (loop_actor order s1 g g (clock (env s)) eq_refl) as (tr & Hlog & Htr).
  destruct (loop_final order s1 g g (clock (env s)) eq_refl) as (Hmu2 & _).
  unfold bind.
  destruct (rangeEntries g order _ s1) as [[] s2|s2|s2]; simpl in *.
  - unfold Unlock. rewrite Hmu2. simpl.
    exists (EvLock g :: tr ++ [EvUnlock g]). split.
    + rewrite Hlog. by rewrite <- !app_assoc.
    + simpl. by rewrite disciplined_quiet.
  - exists (EvLock g :: tr ++ []). split.
    + rewrite Hlog, app_nil_r. by rewrite <- !app_assoc.
    + simpl. by rewrite disciplined_quiet.
  - exists (EvLock g :: tr ++ []). split.
    + rewrite Hlog, app_nil_r. by rewrite <- !app_assoc.
    + simpl. by rewrite disciplined_quiet.
Qed.

(** Property X4.  Whatever the state, every operation other than
    [Delete], and every tick, reaches into the map only while its own
    goroutine holds the mutex; this goes for the deletions that the sweep
    makes through [expire] and [Delete] as well. *)
Theorem all_but_Delete_keep_the_lock s op :
  is_delete op = false →
  ∃ tr, log (step s op) = log s ++ tr ∧ disciplined (mu s) tr = true.
Proof.
  intros Hop.
  assert (Hnone : ∃ tr, log s = log s ++ tr ∧ disciplined (mu s) tr = true).
  { exists []. by rewrite app_nil_r. }
  assert (Hholds : ∀ g, holds (Some g) g = true).
  { intros g. by apply bool_decide_eq_true_2. }
  destruct op as [g k v d|g k f d|g k|g k|g|order|d]; simpl in *; try done.
  - destruct (mu s) eqn:Hmu.
    + by rewrite Store_blocks by (by rewrite Hmu).
    + rewrite Store_returns by done. eexists. split; [done |].
      simpl. by rewrite Hholds.
  - destruct f as [gen|]; [|done]. destruct (mu s) eqn:Hmu.
    + rewrite StorePerpetual_blocks by (by rewrite Hmu). by eexists.
    + rewrite StorePerpetual_returns by done. eexists. split; [done |].
      simpl. by rewrite Hholds.
  - destruct (mu s) eqn:Hmu.
    + by rewrite Get_blocks by (by rewrite Hmu).
    + rewrite Get_returns by done. eexists. split; [done |].
      simpl. by rewrite Hholds.
  - unfold Free. by destruct (bg s).
  - unfold tick. destruct (bg s); try done.
    destruct (sweep_trace s Sweeper order) as (tr & Hlog & Htr).
    exists tr. by destruct (sweep Sweeper order s).
Qed.

(** ** [Free] and the life of the sweeping goroutine *)

Lemma bg_step s op : bg s ≠ Polling → bg (step s op) = bg s.
Proof.
  intros Hbg. destruct op as [g k v d|g k f d|g k|g k|g|order|d]; simpl; try done.
  - destruct (mu s) eqn:Hmu.
    + by rewrite Store_blocks by (by rewrite Hmu).
    + by rewrite Store_returns.
  - destruct f as [gen|]; [|done]. destruct (mu s) eqn:Hmu.
    + by rewrite StorePerpetual_blocks by (by rewrite Hmu).
    + by rewrite StorePerpetual_returns.
  - destruct (mu s) eqn:Hmu.
    + by rewrite Get_blocks by (by rewrite Hmu).
    + by rewrite Get_returns.
  - unfold Free. destruct (bg s) eqn:E; simpl; congruence.
  - unfold tick. destruct (bg s) eqn:E; simpl; congruence.
Qed.

Lemma bg_run ops : ∀ s, bg s ≠ Polling → bg (run ops s) = bg s.
Proof.
  induction ops as [|op ops IH]; intros s Hbg; [done |].
  simpl. rewrite IH; rewrite bg_step; done.
Qed.

(** Property X5.  [Free] returns when the sweeping goroutine is in its
    [select], and leaves the map and the mutex alone.  From then on,
    whatever happens, the goroutine is gone: no tick changes anything any
    more (entries stay for ever unless they are deleted), and a second
    [Free] does not return. *)
Theorem Free_ends_the_sweeps s g :
  bg s = Polling →
  ∃ s', Free g s = Ret tt s'
        ∧ entries s' = entries s ∧ mu s' = mu s
        ∧ ∀ ops,
            (∀ order, tick order (run ops s') = run ops s')
            ∧ (∀ g', Free g' (run ops s') = Blocked (run ops s')).
Proof.
  intros Hbg. unfold Free at 1. rewrite Hbg. eexists.
  split; [done |]. split; [done |]. split; [done |]. intros ops.
  assert (Hstopped : bg (run ops (set_bg Stopped s)) = Stopped).
  { by rewrite bg_run. }
  split.
  - intros order. unfold tick. by rewrite Hstopped.
  - intros g'. unfold Free. by rewrite Hstopped.
Qed.

(** Property X6.  In a cache made by [NewCache], whatever has happened
    since, every perpetual entry has a generator ([StorePerpetual] panics
    on a nil one before it gets to the map), so that a sweep never
    panics and the sweeping goroutine never dies of one - as long as the
    generators themselves return. *)
Theorem sweeper_never_panics w (ops : list (@Op K V U)) :
  callable_inv (run ops (NewCache w))
  ∧ bg (run ops (NewCache w)) ≠ Crashed
  ∧ ∀ order s', sweep Sweeper order (run ops (NewCache w)) ≠ Panic s'.
Proof.
  assert (Hrun : ∀ (ops : list (@Op K V U)) s,
            settled s → bg s ≠ Crashed →
            settled (run ops s) ∧ bg (run ops s) ≠ Crashed).
  { clear ops. induction ops as [|op ops IH]; intros s Hs Hbg; [done |].
    simpl. apply IH; [by apply settled_step |].
    assert (Hcase : bg s = Polling ∨ bg s ≠ Polling).
    { destruct (bg s); [by left | by right..]. }
    destruct Hcase as [Hpoll|Hpoll]; [|by rewrite bg_step].
    destruct Hs as [Hinv [Hmu | [_ Hparked]]]; [|congruence].
    destruct op as [g k v d|g k f d|g k|g k|g|order|d]; simpl.
    - by rewrite Store_returns.
    - destruct f as [gen|]; [|done]. by rewrite StorePerpetual_returns.
    - done.
    - by rewrite Get_returns.
    - unfold Free. by rewrite Hpoll.
    - unfold tick. rewrite Hpoll.
      destruct (sweep_frame s Sweeper order) as [Hbg' _].
      destruct (sweep_outcome s Sweeper order Hmu Hinv)
        as [(s' & Hs' & _) | (s' & Hs' & _)]; rewrite Hs' in *; simpl in *.
      + congruence.
      + done.
    - done. }
  destruct (Hrun ops (NewCache w)) as [[Hinv Hmu] Hbg].
  { split; [apply map_Forall_empty | by left]. }
  { done. }
  split; [done |]. split; [done |]. intros order s' Hpanic.
  destruct Hmu as [Hmu | [Hmu _]].
  - destruct (sweep_outcome _ Sweeper order Hmu Hinv)
      as [(s1 & Hs1 & _) | (s1 & Hs1 & _)]; congruence.
  - rewrite sweep_blocks in Hpanic by (by rewrite Hmu). done.
Qed.



(** ** Keys do not interfere *)

Lemma step_other_key s op k :
  is_tick op = false → op_key op ≠ Some k →
  entries (step s op) !! k = entries s !! k.
Proof.
  intros Htick Hkey.
  destruct op as [g k' v d|g k' f d|g k'|g k'|g|order|d]; simpl in *; try done.
  - destruct (mu s) eqn:Hmu.
    + by rewrite Store_blocks by (by rewrite Hmu).
    + rewrite Store_returns by done. simpl.
      apply lookup_insert_ne. congruence.
  - destruct f as [gen|]; [|done]. destruct (mu s) eqn:Hmu.
    + by rewrite StorePerpetual_blocks by (by rewrite Hmu).
    + rewrite StorePerpetual_returns by done. simpl.
      apply lookup_insert_ne. congruence.
  - apply lookup_delete_ne. congruence.
  - by rewrite Get_entries.
  - unfold Free. by destruct (bg s).
Qed.

(** Property X8.  What clients do under other keys, [Free], and the
    passing of time leave the entry of a key as it is, whether those
    operations return, park or panic: an entry changes only through an
    operation that names its key, or through a tick. *)
Theorem other_keys_do_not_interfere k ops : ∀ s,
  Forall (λ op, is_tick op = false ∧ op_key op ≠ Some k) ops →
  entries (run ops s) !! k = entries s !! k.
Proof.
  induction ops as [|op ops IH]; intros s Hops; [done |].
  apply Forall_cons in Hops as [[Htick Hkey] Hops]. simpl.
  rewrite IH by done. by apply step_other_key.
Qed.


(** ** Expiry is the business of the sweep alone *)

(** Property X10.  [Get] does not look at the expiry: an entry whose
    lifetime is over, or was zero or negative from the start, is still
    returned as long as no tick has come by. *)
Theorem expired_entry_still_served s g g' k v d delta :
  mu s = None →
  (- 2 ^ 63 ≤ clock (env s) + d)%Z → (d ≤ Z.max 0 delta)%Z →
  (clock (env s) + Z.max 0 delta < 2 ^ 63)%Z →
  let s1 := sleep delta (final (Store g k v d s)) in
  ∃ e s2,
    entries s1 !! k = Some e
    ∧ due (clock (env s1)) e = true
    ∧ Get g' k s1 = Ret v s2.
Proof.
  intros Hmu Hlo Hd Hhi s1. unfold s1.
  rewrite Store_returns by done. unfold sleep. simpl.
  eexists _, _. split; [apply lookup_insert_eq |]. split.
  - unfold due. apply bool_decide_eq_true. simpl. apply UnixNano_le; lia.
  - rewrite Get_returns by done. simpl. by rewrite lookup_insert_eq.
Qed.

Lemma tick_evicts_due s order k e :
  mu s = None → bg s = Polling → range_order (entries s) order →
  (∀ k' e', entries s !! k' = Some e' → due (clock (env s)) e' = true →
            perpetual e' = false) →
  entries s !! k = Some e → due (clock (env s)) e = true →
  entries (tick order s) !! k = None
  ∧ ∀ g, ∃ s', Get g k (tick order s) = Ret nil_value s'.
Proof.
  intros Hmu Hbg [_ Hcover] Hplain Hk Hdue.
  destruct (sweep_evicts s Sweeper order) as (s1 & Hrun & Hmu1 & _ & _ & Hent1);
    try done.
  { intros k'. apply Hcover. }
  assert (Htick : tick order s = s1).
  { unfold tick. by rewrite Hbg, Hrun. }
  rewrite Htick.
  assert (Hk1 : entries s1 !! k = None).
  { rewrite Hent1, lookup_omap, Hk. simpl. unfold evict. by rewrite Hdue. }
  split; [done |]. intros g. rewrite Get_returns, Hk1 by done. by eexists.
Qed.

Lemma wrap64_over (z : Z) :
  (2 ^ 63 ≤ z < 2 ^ 64)%Z → wrap64 z = (z - 2 ^ 64)%Z.
Proof.
  intros Hz. unfold wrap64.
  replace (z + 2 ^ 63)%Z with ((z - 2 ^ 63) + 1 * 2 ^ 64)%Z by lia.
  rewrite Z.mod_add by lia. rewrite Z.mod_small by lia. lia.
Qed.

(** Property X11.  The sweep compares [UnixNano] values, which wrap
    around in the year 2262.  An entry stored to expire later than that
    (a lifetime of [math.MaxInt64], say) is due at once: the very next
    tick removes it, long before its expiry. *)
Theorem far_expiry_evicted_at_once s g k v d order :
  mu s = None → bg s = Polling →
  (0 ≤ clock (env s) < 2 ^ 63)%Z → (2 ^ 63 ≤ clock (env s) + d < 2 ^ 64)%Z →
  (∀ k' e', entries s !! k' = Some e' → due (clock (env s)) e' = true →
            perpetual e' = false) →
  let s1 := final (Store g k v d s) in
  range_order (entries s1) order →
  (∃ e, entries s1 !! k = Some e ∧ (clock (env s1) < expiry e)%Z)
  ∧ entries (tick order s1) !! k = None
  ∧ ∀ g', ∃ s', Get g' k (tick order s1) = Ret nil_value s'.
Proof.
  intros Hmu Hbg Hnow Hfar Hplain s1.
  assert (Hs1 : entries s1 = <[k := plain_entry (clock (env s)) v d]> (entries s)
                ∧ mu s1 = None ∧ bg s1 = Polling ∧ env s1 = env s).
  { unfold s1. by rewrite Store_returns by done. }
  destruct Hs1 as (Hent & Hmu1 & Hbg1 & Henv). intros Horder.
  assert (Hdue : due (clock (env s))
                   (plain_entry (clock (env s)) v d : CacheEntry) = true).
  { unfold due, UnixNano. apply bool_decide_eq_true. simpl.
    rewrite wrap64_over by done. rewrite wrap64_id by lia. lia. }
  split.
  - eexists. rewrite Hent, Henv. split; [apply lookup_insert_eq |]. simpl. lia.
  - apply (tick_evicts_due s1 order k (plain_entry (clock (env s)) v d));
      rewrite ?Henv; try done.
    + rewrite Hent. intros k' e' [[-> <-] | [_ He']]%lookup_insert_Some Hdue'.
      * done.
      * by apply (Hplain k').
    + rewrite Hent. apply lookup_insert_eq.
Qed.

(** Property X12.  [StorePerpetual] reads the clock before it calls the
    generator: the lifetime runs from before the first generation, and an
    entry whose generator takes as long as the lifetime or longer is due
    the moment it gets into the map. *)
Theorem slow_generator_entry_is_born_due s g k gen d :
  mu s = None →
  (- 2 ^ 63 ≤ clock (env s) + d)%Z →
  (clock (env s) + d ≤ clock (gen (env s)).2)%Z →
  (clock (gen (env s)).2 < 2 ^ 63)%Z →
  ∃ s1 e,
    StorePerpetual g k (Some gen) d s = Ret tt s1
    ∧ entries s1 !! k = Some e
    ∧ expiry e = (clock (env s) + d)%Z
    ∧ due (clock (env s1)) e = true.
Proof.
  intros Hmu Hlo Hslow Hhi. rewrite StorePerpetual_returns by done.
  eexists _, _. split; [done |]. simpl. split; [apply lookup_insert_eq |].
  split; [done |]. unfold due. apply bool_decide_eq_true. simpl.
  apply UnixNano_le; lia.
Qed.


(** ** Generators are for perpetual entries *)

Lemma loop_plain order : ∀ s g g0 now k,
  mu s = Some g0 → plain_at k s →
  ∃ tr, log (final (rangeEntries g order (visit g now) s)) = log s ++ tr
        ∧ Forall (λ ev, is_call_for k ev = false) tr.
Proof.
  induction order as [|k0 rest IH]; intros s g g0 now k Hmu Hplain.
  { exists []. by rewrite app_nil_r. }
  rewrite (loop_step s g g0) by done. simpl.
  assert (Hgo : ∀ s1 pre, mu s1 = Some g0 → plain_at k s1 →
            log s1 = log s ++ pre →
            Forall (λ ev, is_call_for k ev = false) pre →
            ∃ tr, log (final (rangeEntries g rest (visit g now) s1)) = log s ++ tr
                  ∧ Forall (λ ev, is_call_for k ev = false) tr).
  { intros s1 pre Hmu1 Hplain1 Hlog1 Hpre.
    destruct (IH s1 g g0 now k Hmu1 Hplain1) as (tr & Hlog & Htr).
    exists (pre ++ tr). split; [|by apply Forall_app].
    by rewrite Hlog, Hlog1, <- app_assoc. }
  destruct (entries s !! k0) as [e0|] eqn:Hk0.
  2:{ apply (Hgo _ [EvMapLoad g k0]); [done.. |]. by repeat constructor. }
  destruct (due now e0).
  2:{ apply (Hgo _ [EvMapLoad g k0]); [done.. |]. by repeat constructor. }
  destruct (perpetual e0) eqn:Hperp0.
  2:{ apply (Hgo _ [EvMapLoad g k0; EvMapDelete g k0]); [done | | |].
      - intros e He. simpl in He. apply lookup_delete_Some in He as [_ He].
        by apply Hplain.
      - simpl. by rewrite <- app_assoc.
      - by repeat constructor. }
  assert (Hne : k0 ≠ k).
  { intros ->. specialize (Hplain e0 Hk0). congruence. }
  destruct (fn e0) as [gen|]; simpl.
  - exists [EvMapLoad g k0; EvCall g k0]. split; [by rewrite <- app_assoc |].
    apply Forall_cons. split; [done |].
    apply Forall_cons. split; [by apply bool_decide_eq_false | by apply Forall_nil].
  - exists [EvMapLoad g k0]. split; [done | by repeat constructor].
Qed.

Lemma left_plain_refl k s : plain_at k s → left_plain k s s.
Proof. intros Hplain. split; [done |]. exists []. by rewrite app_nil_r. Qed.

Lemma sweep_plain s g order k :
  plain_at k s → left_plain k s (final (sweep g order s)).
Proof.
  intros Hplain. destruct (mu s) as [g0|] eqn:Hmu.
  { rewrite sweep_blocks by (by rewrite Hmu). by apply left_plain_refl. }
  destruct (sweep_frame s g order) as (_ & Hent & _).
  split.
  { intros e He. destruct (Hent k) as [Heq | [Heq _]]; [|congruence].
    apply Hplain. by rewrite <- Heq. }
  rewrite sweep_unfold by done.
  set (s1 := emit (EvLock g) (set_mu (Some g) s)).
  destruct (loop_plain order s1 g g (clock (env s)) k eq_refl Hplain)
    as (tr & Hlog & Htr).
  destruct (loop_final order s1 g g (clock (env s)) eq_refl) as (Hmu2 & _).
  unfold bind.
  destruct (rangeEntries g order _ s1) as [[] s2|s2|s2]; simpl in *.
  - unfold Unlock. rewrite Hmu2. simpl.
    exists (EvLock g :: tr ++ [EvUnlock g]). split.
    + rewrite Hlog. by rewrite <- !app_assoc.
    + constructor; [done |]. apply Forall_app. split; [done | by repeat constructor].
  - exists (EvLock g :: tr). split.
    + rewrite Hlog. by rewrite <- !app_assoc.
    + by constructor.
  - exists (EvLock g :: tr). split.
    + rewrite Hlog. by rewrite <- !app_assoc.
    + by constructor.
Qed.

Lemma step_plain k s op :
  plain_at k s → ¬ stores_perpetual k op → left_plain k s (step s op).
Proof.
  intros Hplain Hop. pose proof (left_plain_refl k s Hplain) as Hsame.
  destruct op as [g k' v d|g k' f d|g k'|g k'|g|order|d]; simpl in *.
  - destruct (mu s) eqn:Hmu.
    + by rewrite Store_blocks by (by rewrite Hmu).
    + rewrite Store_returns by done. split.
      * intros e He. simpl in He.
        apply lookup_insert_Some in He as [[_ <-] | [_ He]]; [done | by apply Hplain].
      * eexists. split; [done |]. by repeat constructor.
  - assert (Hcall : is_call_for k (EvCall g k') = false).
    { by apply bool_decide_eq_false. }
    destruct f as [gen|]; [|done]. destruct (mu s) eqn:Hmu.
    + rewrite StorePerpetual_blocks by (by rewrite Hmu). split; [done |].
      eexists. split; [done |]. by repeat constructor.
    + rewrite StorePerpetual_returns by done. split.
      * intros e He. simpl in He. rewrite lookup_insert_ne in He by done.
        by apply Hplain.
      * eexists. split; [done |]. by repeat constructor.
  - split.
    + intros e He. simpl in He. apply lookup_delete_Some in He as [_ He].
      by apply Hplain.
    + eexists. split; [done |]. by repeat constructor.
  - destruct (mu s) eqn:Hmu.
    + by rewrite Get_blocks by (by rewrite Hmu).
    + rewrite Get_returns by done. split; [done |].
      eexists. split; [done |]. by repeat constructor.
  - unfold Free. by destruct (bg s).
  - unfold tick. destruct (bg s); try done.
    pose proof (sweep_plain s Sweeper order k Hplain) as Hsweep.
    by destruct (sweep Sweeper order s).
  - done.
Qed.

Lemma run_plain k ops : ∀ s,
  plain_at k s → Forall (λ op, ¬ stores_perpetual k op) ops →
  left_plain k s (run ops s).
Proof.
  induction ops as [|op ops IH]; intros s Hplain Hops.
  { by apply left_plain_refl. }
  apply Forall_cons in Hops as [Hop Hops].
  destruct (step_plain k s op Hplain Hop) as (Hplain1 & tr1 & Hlog1 & Hcalls1).
  destruct (IH (step s op) Hplain1 Hops) as (Hplain2 & tr2 & Hlog2 & Hcalls2).
  split; [done |]. exists (tr1 ++ tr2). split.
  - simpl. rewrite Hlog2, Hlog1. by rewrite <- app_assoc.
  - by apply Forall_app.
Qed.

(** Property X13.  A generator is only ever called for a key that holds
    a perpetual entry.  As long as [StorePerpetual] is not called for it,
    a key whose entry is plain or missing stays that way and sees no
    generator call, whatever ticks and operations come; in particular
    [Store] over a perpetual entry makes the key plain and ends its
    regeneration. *)
Theorem regeneration_needs_a_perpetual_entry k ops s :
  Forall (λ op, ¬ stores_perpetual k op) ops →
  (plain_at k s → left_plain k s (run ops s))
  ∧ (∀ g v d, mu s = None →
       left_plain k (final (Store g k v d s)) (run ops (final (Store g k v d s)))).
Proof.
  intros Hops. split.
  - intros Hplain. by apply run_plain.
  - intros g v d Hmu. apply run_plain; [|done].
    rewrite Store_returns by done. intros e He. simpl in He.
    rewrite lookup_insert_eq in He. by injection He as <-.
Qed.

(** ** A cache whose sweeper is parked *)

Lemma parked_step_shrinks s op :
  mu s = Some Sweeper → bg s = Parked → shrunk s (step s op).
Proof.
  intros Hmu Hbg k.
  destruct op as [g k' v d|g k' f d|g k'|g k'|g|order|d]; simpl.
  - left. by rewrite Store_blocks by (by rewrite Hmu).
  - left. destruct f as [gen|]; [|done].
    by rewrite StorePerpetual_blocks by (by rewrite Hmu).
  - destruct (decide (k' = k)) as [->|Hne].
    + right. apply lookup_delete_eq.
    + left. by apply lookup_delete_ne.
  - left. by rewrite Get_blocks by (by rewrite Hmu).
  - left. unfold Free. by rewrite Hbg.
  - left. unfold tick. by rewrite Hbg.
  - by left.
Qed.

(** Property X14.  Once the sweeping goroutine is parked with the mutex,
    the cache takes nothing in any more: whatever is tried, [Store] and
    [Free] park, [StorePerpetual] still runs the generator and then
    parks without storing, and the map can only lose entries, to
    [Delete]. *)
Theorem parked_cache_is_frozen s ops :
  mu s = Some Sweeper → bg s = Parked →
  shrunk s (run ops s)
  ∧ (∀ g k v d, Store g k v d (run ops s) = Blocked (run ops s))
  ∧ (∀ g k gen d, ∃ s',
       StorePerpetual g k (Some gen) d (run ops s) = Blocked s'
       ∧ entries s' = entries (run ops s)
       ∧ env s' = (gen (env (run ops s))).2)
  ∧ (∀ g, Free g (run ops s) = Blocked (run ops s)).
Proof.
  intros Hmu Hbg.
  destruct (parked_run ops s Hmu Hbg) as [Hmu' Hbg'].
  split; [|split; [|split]].
  - clear Hmu' Hbg'. revert s Hmu Hbg.
    induction ops as [|op ops IH]; intros s Hmu Hbg k; [by left |].
    destruct (parked_step s op Hmu Hbg) as [Hmu1 Hbg1]. simpl.
    destruct (IH (step s op) Hmu1 Hbg1 k) as [Heq | Hnone]; [|by right].
    rewrite Heq. by apply parked_step_shrinks.
  - intros g k v d. apply Store_blocks. by rewrite Hmu'.
  - intros g k gen d. rewrite StorePerpetual_blocks by (by rewrite Hmu').
    by eexists.
  - intros g. unfold Free. by rewrite Hbg'.
Qed.

End facts.

(** * Worked cases *)

Lemma range_order_singleton {K : Type} `{Countable K} {V U : Type}
    (k : K) (e : @CacheEntry V U) :
  range_order (<[k := e]> ∅) [k].
Proof.
  split; [apply NoDup_singleton |]. intros k'.
  rewrite list_elem_of_singleton, lookup_insert_is_Some, lookup_empty.
  split; [intros ->; by left |].
  intros [-> | [_ [? ?]]]; done.
Qed.



Lemma Get_spec_witness :
  ∃ s', Get (Client 0) "Key" Example.stored = Ret (dyn 7) s'
        ∧ entries s' = entries Example.stored ∧ mu s' = None.
Proof.
  destruct (Get_spec Example.stored (Client 0) "Key") as (_ & Hget & _).
  apply Hget. reflexivity.
Defined.

Lemma nil_is_a_miss_witness :
  ∃ s1 s2,
    Store (Client 0) "Key" nil_value 30%Z Example.fresh = Ret tt s1
    ∧ is_Some (entries s1 !! "Key")
    ∧ Get (Client 0) "Key" s1 = Ret nil_value s2
    ∧ ∀ (s0 : @State string _ _ nat nat) k0,
        mu s0 = None → entries s0 !! k0 = None →
        ∃ s3, Get (Client 0) k0 s0 = Ret nil_value s3.
Proof. apply (nil_is_a_miss Example.fresh). reflexivity. Defined.

Lemma overdue_callable : callable_inv Example.overdue.
Proof. apply map_Forall_insert_2; [reflexivity | apply map_Forall_empty]. Qed.

Lemma overdue_order : range_order (entries Example.overdue) ["SiteTree"].
Proof. apply range_order_singleton. Qed.

Lemma sweep_parks_on_its_own_lock_witness :
  ∃ s' k' tr,
    sweep Sweeper ["SiteTree"] Example.overdue = Blocked s'
    ∧ mu s' = Some Sweeper
    ∧ log s' = log Example.overdue ++ EvLock Sweeper :: tr ++ [EvCall Sweeper k']
    ∧ Forall (λ ev, is_sync ev = false) tr
    ∧ ∀ ops g key,
        Get g key (run ops (tick ["SiteTree"] Example.overdue)) =
          Blocked (run ops (tick ["SiteTree"] Example.overdue)).
Proof.
  apply (sweep_parks_on_its_own_lock Example.overdue ["SiteTree"] "SiteTree"
           (mkEntry (dyn 0) 1030%Z true (Some Example.counter) 30%Z)).
  - reflexivity.
  - reflexivity.
  - exact overdue_callable.
  - exact overdue_order.
  - reflexivity.
  - reflexivity.
  - reflexivity.
Defined.

Lemma sweep_never_regenerates_witness :
  ∃ s',
    sweep Sweeper ["SiteTree"] Example.overdue = Blocked s'
    ∧ entries s' !! "SiteTree" =
        Some (mkEntry (dyn 0) 1030%Z true (Some Example.counter) 30%Z)
    ∧ entries (tick ["SiteTree"] Example.overdue) !! "SiteTree" =
        Some (mkEntry (dyn 0) 1030%Z true (Some Example.counter) 30%Z)
    ∧ ∀ ops, Forall (λ op, ∃ order', op = OpTick order' ∨ ∃ d, op = OpSleep d) ops →
        entries (run ops (tick ["SiteTree"] Example.overdue)) =
          entries (tick ["SiteTree"] Example.overdue).
Proof.
  apply (sweep_never_regenerates Example.overdue ["SiteTree"] "SiteTree").
  - reflexivity.
  - reflexivity.
  - exact overdue_callable.
  - exact overdue_order.
  - reflexivity.
  - reflexivity.
  - reflexivity.
Defined.

Lemma perpetual_entry_never_refreshed_witness :
  let s3 := tick ["SiteTree"] Example.overdue in
  let stale := mkEntry (dyn 0) 1030%Z true (Some Example.counter) 30%Z in
  entries s3 !! "SiteTree" = Some stale
  ∧ (∀ orders, entries (run (OpTick <$> orders) s3) !! "SiteTree" = Some stale)
  ∧ ∀ ops g', Get g' "SiteTree" (run ops s3) = Blocked (run ops s3).
Proof.
  apply (perpetual_entry_never_refreshed Example.fresh (Client 0) "SiteTree"
           Example.counter 30%Z 40%Z ["SiteTree"]).
  - reflexivity.
  - reflexivity.
  - apply map_Forall_empty.
  - vm_compute. discriminate.
  - exact overdue_order.
Defined.



(** [UnixNano] wraps around in 2262: an entry stored in 2026 to last for
    the longest [Duration] there is, is due at once, and the next sweep
    evicts it. *)
Lemma forever_is_evicted :
  Get (Client 0) "Key" Example.forever
    = Ret (dyn 7) (final (Get (Client 0) "Key" Example.forever))
  ∧ entries (tick ["Key"] Example.forever) !! "Key" = None.
Proof. split; by vm_compute. Qed.

(** ** Worked cases of the further properties *)

Lemma range_order_pair {K : Type} `{Countable K} {V U : Type}
    (a b : K) (ea eb : @CacheEntry V U) :
  a ≠ b →
  range_order (<[b := eb]> (<[a := ea]> ∅)) [a; b]
  ∧ range_order (<[b := eb]> (<[a := ea]> ∅)) [b; a].
Proof.
  intros Hne.
  assert (Hkeys : ∀ k, is_Some ((<[b := eb]> (<[a := ea]> ∅) : gmap K _) !! k)
                       ↔ k = a ∨ k = b).
  { intros k. rewrite !lookup_insert_is_Some, lookup_empty.
    split.
    - intros [-> | [_ [-> | [_ [? ?]]]]]; [by right | by left | done].
    - intros [-> | ->]; [right; split; [done | by left] | by left]. }
  split; (split; [|intros k; rewrite Hkeys]).
  - apply NoDup_cons. split; [|apply NoDup_singleton].
    by intros ->%list_elem_of_singleton.
  - rewrite !elem_of_cons, elem_of_nil. tauto.
  - apply NoDup_cons. split; [|apply NoDup_singleton].
    by intros ->%list_elem_of_singleton.
  - rewrite !elem_of_cons, elem_of_nil. tauto.
Qed.

Lemma all_plain_no_perpetual_due {K : Type} `{Countable K} {V U : Type}
    (s : @State K _ _ V U) :
  map_Forall (λ _ e, perpetual e = false) (entries s) →
  ∀ k e, entries s !! k = Some e → due (clock (env s)) e = true →
         perpetual e = false.
Proof. intros Hall k e Hk _. by apply (Hall k). Qed.

Lemma pair_plain : map_Forall (λ _ e, perpetual e = false) (entries Example.pair).
Proof.
  apply map_Forall_insert_2; [reflexivity |].
  apply map_Forall_insert_2; [reflexivity | apply map_Forall_empty].
Qed.

Lemma pair_orders :
  range_order (entries Example.pair) ["Key"; "Key2"]
  ∧ range_order (entries Example.pair) ["Key2"; "Key"].
Proof. by apply range_order_pair. Qed.


Lemma not_due_survives_witness :
  entries (tick ["Key"; "Key2"] Example.pair) !! "Key"
    = Some (mkEntry (dyn 7) 1030%Z false None 0%Z)
  ∧ ∀ g, entries (final (sweep g ["Key"; "Key2"] Example.pair)) !! "Key"
         = Some (mkEntry (dyn 7) 1030%Z false None 0%Z).
Proof.
  apply (not_due_survives Example.pair ["Key"; "Key2"] "Key").
  - reflexivity.
  - reflexivity.
Defined.

Lemma sweep_order_irrelevant_witness :
  ∃ s1 s2 s3,
    sweep Sweeper ["Key"; "Key2"] Example.pair = Ret tt s1
    ∧ sweep Sweeper ["Key2"; "Key"] Example.pair = Ret tt s2
    ∧ entries s1 = entries s2
    ∧ sweep Sweeper ["Key"; "Key2"] s1 = Ret tt s3
    ∧ entries s3 = entries s1.
Proof.
  apply (sweep_order_irrelevant Example.pair ["Key"; "Key2"] ["Key2"; "Key"]).
  - reflexivity.
  - apply pair_orders.
  - apply pair_orders.
  - apply all_plain_no_perpetual_due, pair_plain.
Defined.


Lemma sweep_keeps_perpetual_witness :
  entries (final (sweep Sweeper ["SiteTree"] Example.overdue)) !! "SiteTree"
    = Some (mkEntry (dyn 0) 1030%Z true (Some Example.counter) 30%Z).
Proof.
  apply (sweep_keeps_perpetual Example.overdue Sweeper ["SiteTree"] "SiteTree").
  - reflexivity.
  - reflexivity.
Defined.

Lemma all_but_Delete_keep_the_lock_witness :
  ∃ tr, log (step Example.overdue (OpTick ["SiteTree"])) = log Example.overdue ++ tr
        ∧ disciplined (mu Example.overdue) tr = true.
Proof.
  apply (all_but_Delete_keep_the_lock Example.overdue (OpTick ["SiteTree"])).
  reflexivity.
Defined.

Lemma Free_ends_the_sweeps_witness :
  ∃ s', Free (Client 0) Example.lapsed = Ret tt s'
        ∧ entries s' = entries Example.lapsed ∧ mu s' = mu Example.lapsed
        ∧ ∀ ops,
            (∀ order, tick order (run ops s') = run ops s')
            ∧ (∀ g', Free g' (run ops s') = Blocked (run ops s')).
Proof. apply (Free_ends_the_sweeps Example.lapsed (Client 0)). reflexivity. Defined.



Lemma other_keys_do_not_interfere_witness :
  entries (run Example.elsewhere Example.stored) !! "Key"
    = entries Example.stored !! "Key".
Proof.
  apply (other_keys_do_not_interfere "Key" Example.elsewhere Example.stored).
  repeat constructor; discriminate.
Defined.


Lemma expired_entry_still_served_witness :
  let s1 := sleep 0%Z (final (Store (Client 0) "Key" (dyn 7) (-5)%Z Example.fresh)) in
  ∃ e s2,
    entries s1 !! "Key" = Some e
    ∧ due (clock (env s1)) e = true
    ∧ Get (Client 1) "Key" s1 = Ret (dyn 7) s2.
Proof.
  apply (expired_entry_still_served Example.fresh (Client 0) (Client 1) "Key"
           (dyn 7) (-5)%Z 0%Z).
  - reflexivity.
  - simpl. lia.
  - simpl. lia.
  - simpl. lia.
Defined.

Lemma far_expiry_evicted_at_once_witness :
  (∃ e, entries Example.forever !! "Key" = Some e
        ∧ (clock (env Example.forever) < expiry e)%Z)
  ∧ entries (tick ["Key"] Example.forever) !! "Key" = None
  ∧ ∀ g', ∃ s', Get g' "Key" (tick ["Key"] Example.forever) = Ret nil_value s'.
Proof.
  apply (far_expiry_evicted_at_once (NewCache Example.year2026) (Client 0) "Key"
           (dyn 7) (2 ^ 63 - 1)%Z ["Key"]).
  - reflexivity.
  - reflexivity.
  - simpl. lia.
  - simpl. lia.
  - intros k' e' He'. simpl in He'. by rewrite lookup_empty in He'.
  - apply range_order_singleton.
Defined.

Lemma slow_generator_entry_is_born_due_witness :
  ∃ s1 e,
    StorePerpetual (Client 0) "SiteTree" (Some Example.counter) 3%Z Example.fresh
      = Ret tt s1
    ∧ entries s1 !! "SiteTree" = Some e
    ∧ expiry e = 1003%Z
    ∧ due (clock (env s1)) e = true.
Proof.
  apply (slow_generator_entry_is_born_due Example.fresh (Client 0) "SiteTree"
           Example.counter 3%Z).
  - reflexivity.
  - simpl. lia.
  - simpl. lia.
  - simpl. lia.
Defined.

Lemma regeneration_needs_a_perpetual_entry_witness :
  (plain_at "Key" Example.cycled →
   left_plain "Key" Example.cycled
     (run (OpTick ["SiteTree"] :: Example.elsewhere) Example.cycled))
  ∧ (∀ g v d, mu Example.cycled = None →
       left_plain "Key" (final (Store g "Key" v d Example.cycled))
         (run (OpTick ["SiteTree"] :: Example.elsewhere)
            (final (Store g "Key" v d Example.cycled)))).
Proof.
  apply (regeneration_needs_a_perpetual_entry "Key"
           (OpTick ["SiteTree"] :: Example.elsewhere) Example.cycled).
  repeat constructor; simpl; try discriminate; tauto.
Defined.

Lemma parked_cache_is_frozen_witness :
  shrunk Example.stuck (run Example.elsewhere Example.stuck)
  ∧ (∀ g k v d, Store g k v d (run Example.elsewhere Example.stuck)
                = Blocked (run Example.elsewhere Example.stuck))
  ∧ (∀ g k gen d, ∃ s',
       StorePerpetual g k (Some gen) d (run Example.elsewhere Example.stuck)
         = Blocked s'
       ∧ entries s' = entries (run Example.elsewhere Example.stuck)
       ∧ env s' = (gen (env (run Example.elsewhere Example.stuck))).2)
  ∧ (∀ g, Free g (run Example.elsewhere Example.stuck)
          = Blocked (run Example.elsewhere Example.stuck)).
Proof.
  apply (parked_cache_is_frozen Example.stuck Example.elsewhere).
  - reflexivity.
  - reflexivity.
Defined.
